(** * The biexponential (Logicle) scale of [src/app/bi-exponential.ts]

    A shallow embedding of [BiexponentialTranslator] and of the memoising
    accessor [constructBiExponentialTranslator].

    The TypeScript code computes with the JavaScript [number] type.  The
    embedding is written once, over an interface [JSNumber] that lists the
    operations the code uses (the arithmetic operators, the comparisons and
    the [Math] functions), and is then read at two instances:

    - [float], the kernel's binary64 numbers, where [+ - * /], [<], [<=],
      [==] and [Math.abs] are the IEEE 754 operations of JavaScript and
      every definition runs ([Math.exp], [Math.log] and [Math.log10] are
      "implementation-approximated" in ECMAScript; [Libm] below is one such
      approximation);
    - [R], the real numbers, where the same code is read in exact
      arithmetic: what the doubles of the first reading approximate.

    Statements that depend only on the control flow are proved for every
    instance; statements about the values the code computes are proved at
    [float], and the exact reading is set beside them. *)

From Stdlib Require Import ZArith List String Ascii Bool Lia.
From Stdlib Require Import Reals Lra.
From Stdlib Require Import Floats Uint63.
From stdpp Require Import gmap strings pretty.
Import ListNotations.

Set Implicit Arguments.
Set Warnings "-inexact-float".

(** ** The [number] interface *)

Declare Scope js_scope.
Delimit Scope js_scope with js.

Class JSNumber (num : Type) : Type := {
  of_Z : Z -> num;                      (* an integer literal or loop counter *)
  nadd : num -> num -> num;
  nsub : num -> num -> num;
  nmul : num -> num -> num;
  ndiv : num -> num -> num;
  nopp : num -> num;                    (* unary minus *)
  nlt : num -> num -> bool;             (* [<] *)
  nle : num -> num -> bool;             (* [<=] *)
  neq : num -> num -> bool;             (* [==] *)
  Math_abs : num -> num;
  Math_exp : num -> num;
  Math_log : num -> num;
  Math_log10 : num -> num;
  Math_floor : num -> num;
  to_index : num -> nat                 (* the array subscript an integral value names *)
}.

Notation "x + y" := (nadd x y) : js_scope.
Notation "x - y" := (nsub x y) : js_scope.
Notation "x * y" := (nmul x y) : js_scope.
Notation "x / y" := (ndiv x y) : js_scope.
Notation "- x" := (nopp x) : js_scope.
Notation "x <? y" := (nlt x y) (at level 70, no associativity) : js_scope.
Notation "x <=? y" := (nle x y) (at level 70, no associativity) : js_scope.
Notation "x >? y" := (nlt y x) (at level 70, no associativity) : js_scope.
Notation "x >=? y" := (nle y x) (at level 70, no associativity) : js_scope.
Notation "x =? y" := (neq x y) (at level 70, no associativity) : js_scope.

(** What a call evaluates to: a value, or a thrown [Error]. *)
Inductive Error (num : Type) : Type :=
| ExceededMaximumIterations             (* "exceeded maximum iterations in solve()" *)
| IllegalArgument (scaledValue : num).  (* "Illegal argument to Logicle scale: " + scaledValue *)

Inductive completion (num A : Type) : Type :=
| Normal (a : A)
| Throw (e : Error num).

Arguments ExceededMaximumIterations {num}.
Arguments IllegalArgument {num} scaledValue.
Arguments Normal {num A} a.
Arguments Throw {num A} e.

Inductive ScaleType : Type := Linear | Log | Biexponential | Band | UNKNOWN.

Definition ScaleType_value (s : ScaleType) : Z :=
  match s with
  | Linear => 0 | Log => 1 | Biexponential => 2 | Band => 3 | UNKNOWN => 4
  end.

Section Translator.

Context {num : Type} {N : JSNumber num}.
Local Open Scope js_scope.

(** A decimal literal [m / 10^e], e.g. [4.5] is [decimal 45 1]: both parts
    are exact in binary64, so the correctly rounded quotient is the double
    the literal denotes. *)
Definition decimal (m : Z) (e : Z) : num := of_Z m / of_Z (10 ^ e).

Definition zero : num := of_Z 0.
Definition one : num := of_Z 1.
Definition two : num := of_Z 2.

(** Reads outside an array do not occur in this program (see
    [construct_lookup_length] and [construct_taylor_length]). *)
Definition elem (l : list num) (i : nat) : num := nth i l zero.

(** *** Fields with initialisers *)

Definition _bins : Z := 1024.
Definition _M : num := decimal 45 1.
Definition LN_10 : num := Math_log (of_Z 10).
Definition _EPSILON : num := decimal 1 12.

Record BiexponentialTranslator : Type := {
  _a : num;
  _b : num;
  _c : num;
  _d : num;
  _f : num;
  _x1 : num;
  _W : num;
  _xTaylor : num;
  _taylor : list num;
  _lookup : list num;
  _rValue : num;
  _resolution : num;
  _T : num;
  scale : ScaleType;
  min : num;
  max : num
}.

Definition RValue (this : BiexponentialTranslator) : num := _rValue this.

(** *** [solve] *)

Record solve_state : Type := {
  d_lo : num;
  d_hi : num;
  d : num;
  last_delta : num;
  f : num;
  last_f : option num    (* [None] is the initial [NaN]: [f == NaN] is false *)
}.

Inductive exit : Type :=
| NothingChanged       (* [d == d_lo] after bisecting, [d == t] after a Newton step *)
| DesiredPrecision     (* [Math.abs(delta) < _EPSILON] *)
| RootOrStalled.       (* [f == 0 || f == last_f] *)

Inductive pass : Type :=
| Return (why : exit) (d : num)
| Continue (s : solve_state).

(** The test that selects the bisection step. *)
Definition bisects (w : num) (s : solve_state) : bool :=
  let df := two / d s + w in
  (((d s - d_hi s) * df - f s) * ((d s - d_lo s) * df - f s) >=? zero)
  || (Math_abs (decimal 19 1 * f s) >? Math_abs (last_delta s * df)).

(** One pass through the body of the [for] loop. *)
Definition solve_pass (w f_b : num) (s : solve_state) : pass :=
  let df := two / d s + w in
  let '(delta, d', same) :=
    if bisects w s then
      let delta := (d_hi s - d_lo s) / two in
      let d' := d_lo s + delta in
      (delta, d', d' =? d_lo s)
    else
      let delta := f s / df in
      let t := d s in
      let d' := d s - delta in
      (delta, d', d' =? t) in
  if same then Return NothingChanged d'
  else if Math_abs delta <? _EPSILON then Return DesiredPrecision d'
  else
    let f' := two * Math_log d' + w * d' + f_b in
    if (f' =? zero) || match last_f s with Some l => f' =? l | None => false end
    then Return RootOrStalled d'
    else
      Continue {| d_lo := if f' <? zero then d' else d_lo s;
                  d_hi := if f' <? zero then d_hi s else d';
                  d := d';
                  last_delta := delta;
                  f := f';
                  last_f := Some f' |}.

(** [for (let i = 1; i < 20; ++i)]: the passes that remain when the counter
    is [i] are [20 - i]. *)
Fixpoint solve_loop (remaining : nat) (w f_b : num) (s : solve_state)
  : completion num num :=
  match remaining with
  | O => Throw ExceededMaximumIterations
  | S n =>
      match solve_pass w f_b s with
      | Return _ d' => Normal d'
      | Continue s' => solve_loop n w f_b s'
      end
  end.

Definition solve_f_b (b w : num) : num := - two * Math_log b + w * b.

(** The state on entry to the loop, after the "bisection first step". *)
Definition solve_init (b w : num) : solve_state :=
  let d_lo := zero in
  let d_hi := b in
  let d := (d_lo + d_hi) / two in
  {| d_lo := d_lo;
     d_hi := d_hi;
     d := d;
     last_delta := d_hi - d_lo;
     f := two * Math_log d + w * d + solve_f_b b w;
     last_f := None |}.

Definition solve_passes : nat := (20 - 1)%nat.

Definition solve (b w : num) : completion num num :=
  if w =? zero then Normal b
  else solve_loop solve_passes w (solve_f_b b w) (solve_init b w).

(** *** [seriesBiexponential] and [inverse] *)

Definition seriesBiexponential (this : BiexponentialTranslator) (scale : num) : num :=
  let x := scale - _x1 this in
  let n := List.length (_taylor this) in
  let sum := elem (_taylor this) (n - 1)%nat * x in
  (* [for (let i = n - 2; i >= 2; --i)] *)
  let sum := fold_left (fun sum i => (sum + elem (_taylor this) i) * x)
                       (rev (seq 2 (n - 3)%nat)) sum in
  (sum * x + elem (_taylor this) 0) * x.

(** The closed form [(a * exp(b * scale) + f) - c / exp(d * scale)]. *)
Definition biexponential (this : BiexponentialTranslator) (scale : num) : num :=
  (_a this * Math_exp (_b this * scale) + _f this)
  - _c this / Math_exp (_d this * scale).

Definition inverse (this : BiexponentialTranslator) (scale : num) : num :=
  let negative := scale <? _x1 this in
  let scale := if negative then two * _x1 this - scale else scale in
  let inverse :=
    if scale <? _xTaylor this then seriesBiexponential this scale
    else biexponential this scale in
  if negative then - inverse else inverse.

(** *** The constructor *)

(** The loop that fills [_taylor]; [posCoef] and [negCoef] are updated in
    place on every pass. *)
Fixpoint taylor_loop (b d : num) (indices : list nat) (posCoef negCoef : num)
  : list num :=
  match indices with
  | [] => []
  | i :: rest =>
      let posCoef := posCoef * (b / of_Z (Z.of_nat i + 1)%Z) in
      let negCoef := negCoef * (- d / of_Z (Z.of_nat i + 1)%Z) in
      (posCoef + negCoef) :: taylor_loop b d rest posCoef negCoef
  end.

Definition construct (rValue linearMax : num) : completion num BiexponentialTranslator :=
  let rV := if rValue <? zero then Math_abs rValue else decimal 1 3 in
  let T := linearMax in
  let W := (_M - Math_log10 (T / Math_abs rV)) / two in
  let W := if W <? zero then zero else W in
  let w := W / _M in
  let x2 := zero in
  let x1 := x2 + w in
  let x0 := x2 + two * w in
  let b := _M * LN_10 in
  match solve b w with
  | Throw e => Throw e
  | Normal d =>
      let c_a := Math_exp (x0 * (b + d)) in
      let mf_a := Math_exp (b * x1) - c_a / Math_exp (d * x1) in
      let a := T / ((Math_exp b - mf_a) - c_a / Math_exp d) in
      let c := c_a * a in
      let f := - mf_a * a in
      let xTaylor := x1 + w / of_Z 4 in
      let posCoef := a * Math_exp (b * x1) in
      let negCoef := - c / Math_exp (d * x1) in
      let taylor := <[1%nat := zero]> (taylor_loop b d (seq 0 16) posCoef negCoef) in
      let this := {| _a := a; _b := b; _c := c; _d := d; _f := f;
                     _x1 := x1; _W := W; _xTaylor := xTaylor;
                     _taylor := taylor; _lookup := [];
                     _rValue := rV; _resolution := zero; _T := T;
                     scale := UNKNOWN; min := zero; max := zero |} in
      let lookup :=
        map (fun i => inverse this (of_Z (Z.of_nat i) * one / of_Z _bins))
            (seq 0 (Z.to_nat _bins + 1)%nat) in
      Normal {| _a := a; _b := b; _c := c; _d := d; _f := f;
                _x1 := x1; _W := W; _xTaylor := xTaylor;
                _taylor := taylor; _lookup := lookup;
                _rValue := rV; _resolution := _M / of_Z _bins; _T := T;
                scale := Biexponential;
                min := if rValue <? zero then elem lookup 0 else zero;
                max := if rValue <? zero then linearMax else zero |}
  end.

(** *** [translateFromLinear] *)

(** The search loop: the first [i] of [indices] with
    [lookup[i] <= linearValue < lookup[i + 1]], or [-1]. *)
Fixpoint search (lookup : list num) (linearValue : num) (indices : list nat) : Z :=
  match indices with
  | [] => -1
  | i :: rest =>
      if (linearValue >=? elem lookup i) && (linearValue <? elem lookup (i + 1)%nat)
      then Z.of_nat i
      else search lookup linearValue rest
  end.

Definition translateFromLinear (this : BiexponentialTranslator) (linearValue : num) : num :=
  let lookup := _lookup this in
  if linearValue <=? elem lookup 0 then zero
  else if linearValue >? elem lookup (Z.to_nat (_bins - 1)%Z) then _M
  else
    let index := search lookup linearValue (seq 0 (List.length lookup - 1)%nat) in
    if (index =? 0)%Z then zero
    else
      let index := if (index <? 0)%Z then Z.lnot index else index in
      if (index >=? _bins)%Z then _M
      else if (index >? 0)%Z then
        ((linearValue - elem lookup (Z.to_nat (index - 1)%Z))
           / (elem lookup (Z.to_nat index) - elem lookup (Z.to_nat (index - 1)%Z))
         + of_Z index - one) * _resolution this
      else elem lookup 0.

(** *** [translateToLinear] *)

Definition clamp_scale (scaledValue : num) : num :=
  if scaledValue <? zero then zero
  else if scaledValue >? decimal 45 1 then decimal 45 1
  else scaledValue.

Definition translateToLinear (this : BiexponentialTranslator) (scaledValue : num)
  : completion num num :=
  let scaledValue := clamp_scale scaledValue in
  let x := scaledValue / _resolution this in
  let index := Math_floor x in
  if (index <? zero) || (index >? of_Z _bins) then Throw (IllegalArgument scaledValue)
  else
    let delta := x - index in
    Normal (if index <? of_Z _bins
            then (one - delta) * elem (_lookup this) (to_index index)
                 + delta * elem (_lookup this) (to_index index + 1)%nat
            else elem (_lookup this) (Z.to_nat _bins)).

End Translator.

Arguments BiexponentialTranslator num : clear implicits.
Arguments solve_state num : clear implicits.
Arguments pass num : clear implicits.

(** ** The binary64 instance *)

(** [Math.exp], [Math.log], [Math.log10] and [Math.floor] on binary64,
    written with the kernel's IEEE operations.  ECMAScript leaves the first
    three implementation-approximated; these follow the usual argument
    reduction and agree with the mathematical functions to a few units in
    the last place. *)
Module Libm.

Local Open Scope float_scope.

(** The double nearest to an integer (exact below [2^53]). *)
Definition of_Z (z : Z) : float :=
  if (Z.abs z <? 2 ^ 62)%Z then
    match z with
    | Z0 => PrimFloat.zero
    | Zpos p => PrimFloat.of_uint63 (Uint63.of_Z (Zpos p))
    | Zneg p => - PrimFloat.of_uint63 (Uint63.of_Z (Zpos p))
    end
  else SF2Prim (binary_normalize prec emax z 0 false).

(** The integer a finite float denotes, rounded towards zero. *)
Definition to_Z (x : float) : Z :=
  match Prim2SF x with
  | S754_finite s m e =>
      let a := match e with
               | Zneg p => Z.shiftr (Zpos m) (Zpos p)
               | _ => Z.shiftl (Zpos m) e
               end in
      if s then Z.opp a else a
  | _ => 0%Z
  end.

(** [Math.floor]: a value with a negative binary exponent loses its
    fraction bits (towards minus infinity); every other value is integral,
    infinite, a zero or [NaN], and is returned as it is. *)
Definition floor (x : float) : float :=
  match Prim2SF x with
  | S754_finite s m (Zneg p) =>
      let q := Z.shiftr (Zpos m) (Zpos p) in
      if s then
        if (Z.shiftl q (Zpos p) =? Zpos m)%Z then x else of_Z (- (q + 1))
      else of_Z q
  | _ => x
  end.

Definition ln2_hi : float := 0x1.62e42feep-1.
Definition ln2_lo : float := 0x1.a39ef35793c76p-33.
Definition ln2 : float := 0x1.62e42fefa39efp-1.
Definition sqrt_half : float := 0x1.6a09e667f3bcdp-1.

(** [1 + r/1 (1 + r/2 (1 + ... (1 + r/n)))]. *)
Fixpoint exp_poly (r : float) (k n : nat) : float :=
  match n with
  | O => PrimFloat.one
  | S n' => PrimFloat.one + r / of_Z (Z.of_nat k) * exp_poly r (S k) n'
  end.

Definition exp (x : float) : float :=
  if PrimFloat.is_nan x then x
  else if of_Z 710 <? x then PrimFloat.infinity
  else if x <? of_Z (-746) then PrimFloat.zero
  else
    let k := floor (x / ln2 + 0x1p-1) in
    let r := (x - k * ln2_hi) - k * ln2_lo in
    FloatOps.Z.ldexp (exp_poly r 1 14) (to_Z k).

(** [1 + z/3 + z^2/5 + ...], [n] terms from the odd denominator [k]. *)
Fixpoint atanh_poly (z : float) (k n : nat) : float :=
  match n with
  | O => PrimFloat.zero
  | S n' => PrimFloat.one / of_Z (Z.of_nat k) + z * atanh_poly z (S (S k)) n'
  end.

Definition log (x : float) : float :=
  if PrimFloat.is_nan x then x
  else if x <? PrimFloat.zero then PrimFloat.nan
  else if x =? PrimFloat.zero then PrimFloat.neg_infinity
  else if PrimFloat.is_infinity x then x
  else
    let '(m, e) := FloatOps.Z.frexp x in
    let '(m, e) := if m <? sqrt_half then (m * PrimFloat.two, (e - 1)%Z) else (m, e) in
    let s := (m - PrimFloat.one) / (m + PrimFloat.one) in
    let e := of_Z e in
    e * ln2_hi + (PrimFloat.two * s * atanh_poly (s * s) 1 13 + e * ln2_lo).

Definition ivln10 : float := 0x1.bcb7b1526e50ep-2.
Definition log10_2hi : float := 0x1.34413509f6p-2.
Definition log10_2lo : float := 0x1.9fef311f12b36p-42.

Definition log10 (x : float) : float :=
  if PrimFloat.is_nan x then x
  else if x <? PrimFloat.zero then PrimFloat.nan
  else if x =? PrimFloat.zero then PrimFloat.neg_infinity
  else if PrimFloat.is_infinity x then x
  else
    let '(m, e) := FloatOps.Z.frexp x in
    let '(m, y) := if (1 <=? e)%Z then (m * PrimFloat.two, (e - 1)%Z) else (m, e) in
    let y := of_Z y in
    (y * log10_2lo + ivln10 * log m) + y * log10_2hi.

End Libm.

#[global] Instance float_number : JSNumber float := {|
  of_Z := Libm.of_Z;
  nadd := PrimFloat.add;
  nsub := PrimFloat.sub;
  nmul := PrimFloat.mul;
  ndiv := PrimFloat.div;
  nopp := PrimFloat.opp;
  nlt := PrimFloat.ltb;
  nle := PrimFloat.leb;
  neq := PrimFloat.eqb;
  Math_abs := PrimFloat.abs;
  Math_exp := Libm.exp;
  Math_log := Libm.log;
  Math_log10 := Libm.log10;
  Math_floor := Libm.floor;
  to_index := fun x => Z.to_nat (Libm.to_Z x)
|}.

(** ** The exact instance *)

(** The same operations on the real numbers.  [ln] is [0] outside its
    domain and [x / 0] is [0], where JavaScript gives [NaN] or an infinity:
    the theorems below that go through such an operation establish first
    that its argument is in the domain. *)
Module Exact.

Definition ltb (x y : R) : bool := if Rlt_dec x y then true else false.
Definition leb (x y : R) : bool := if Rle_dec x y then true else false.
Definition eqb (x y : R) : bool := if Req_dec_T x y then true else false.
Definition floor (x : R) : R := IZR (Zfloor x).
Definition log10 (x : R) : R := (ln x / ln 10)%R.

End Exact.

#[global] Instance real_number : JSNumber R := {|
  of_Z := IZR;
  nadd := Rplus;
  nsub := Rminus;
  nmul := Rmult;
  ndiv := Rdiv;
  nopp := Ropp;
  nlt := Exact.ltb;
  nle := Exact.leb;
  neq := Exact.eqb;
  Math_abs := Rabs;
  Math_exp := exp;
  Math_log := ln;
  Math_log10 := Exact.log10;
  Math_floor := Exact.floor;
  to_index := fun x => Z.to_nat (Zfloor x)
|}.

(** ** The memoising accessor *)

(** Objects live in a heap and are named by their address; the module-level
    [translators] maps a key to the address of the object stored under it.
    Two results are the same instance when they are the same address. *)
Section Cache.

Context {num : Type} {N : JSNumber num}.

(** [Number::toString], which the template literal applies to both inputs. *)
Variable Number_toString : num -> string.

Definition address : Type := nat.

Record store : Type := {
  heap : list (BiexponentialTranslator num);
  translators : gmap string address
}.

(** [const translators = new Map()]. *)
Definition initial_store : store := {| heap := []; translators := ∅ |}.

Definition key_of (rValue linearMax : num) : string :=
  Number_toString rValue +:+ "_" +:+ Number_toString linearMax.

(** The result is [translators.get(key)]: an address, or [None] for
    [undefined] (which the [!] of the source asserts away). *)
Definition constructBiExponentialTranslator (rValue linearMax : num) (σ : store)
  : completion num (option address) * store :=
  let key := key_of rValue linearMax in
  match translators σ !! key with
  | Some ref => (Normal (translators σ !! key), σ)
  | None =>
      match construct rValue linearMax with
      | Throw e => (Throw e, σ)
      | Normal this =>
          let ref := List.length (heap σ) in
          let σ' := {| heap := heap σ ++ [this];
                       translators := <[key := ref]> (translators σ) |} in
          (Normal (translators σ' !! key), σ')
      end
  end.

End Cache.

(** [Number::toString] on binary64, as ECMAScript prints integral values
    below [10^21]; other finite values are printed as a mantissa and a binary
    exponent, which separates them as the shortest decimal of ECMAScript
    does. *)
Definition float_toString (x : float) : string :=
  if PrimFloat.is_nan x then "NaN"
  else if PrimFloat.eqb x PrimFloat.infinity then "Infinity"
  else if PrimFloat.eqb x PrimFloat.neg_infinity then "-Infinity"
  else if PrimFloat.eqb x (Libm.floor x)
          && PrimFloat.ltb (PrimFloat.abs x) (Libm.of_Z (10 ^ 21))
  then pretty (Libm.to_Z x)
  else match Prim2SF x with
       | S754_finite s m e =>
           (if s then "-" else "") +:+ pretty (Zpos m) +:+ "p" +:+ pretty e
       | _ => "0"
       end.

(** * The vocabulary of the properties *)

(** Names for what the statements below speak of: parts of the functions
    above, cut out where the source has no name for them, and the
    invariants the proofs carry. *)

Section Vocabulary.

Context {num : Type} {N : JSNumber num}.
Local Open Scope js_scope.

Implicit Types (this : BiexponentialTranslator num) (s : solve_state num).

(** The step a pass takes: the new estimate and the step size. *)
Definition solve_step (w : num) s : num * num :=
  if bisects w s then
    let delta := (d_hi s - d_lo s) / two in (delta, d_lo s + delta)
  else
    let delta := f s / (two / d s + w) in (delta, d s - delta).

(** What holds of a pass that ends the call with [why]. *)
Definition exit_condition (why : exit) (w f_b : num) s : bool :=
  let '(delta, d') := solve_step w s in
  let same := d' =? (if bisects w s then d_lo s else d s) in
  let f' := two * Math_log d' + w * d' + f_b in
  match why with
  | NothingChanged => same
  | DesiredPrecision => negb same && (Math_abs delta <? _EPSILON)
  | RootOrStalled =>
      negb same && negb (Math_abs delta <? _EPSILON)
      && ((f' =? zero) || match last_f s with Some l => f' =? l | None => false end)
  end.

(** The state on entry to the pass with loop counter [i + 1], when the
    [i] passes before it all went on. *)
Fixpoint state_after (i : nat) (w f_b : num) s : option (solve_state num) :=
  match i with
  | O => Some s
  | S i' =>
      match solve_pass w f_b s with
      | Return _ _ => None
      | Continue s' => state_after i' w f_b s'
      end
  end.

(** [inverse] and [seriesBiexponential] read the coefficient fields only:
    the calls the constructor makes before [_lookup] is assigned return what
    the finished object returns. *)
Definition same_coefficients this this' : Prop :=
  _a this = _a this' /\ _b this = _b this' /\ _c this = _c this'
  /\ _d this = _d this' /\ _f this = _f this' /\ _x1 this = _x1 this'
  /\ _xTaylor this = _xTaylor this' /\ _taylor this = _taylor this'.

(** The scale value the constructor samples for [_lookup[i]]. *)
Definition logicleValue (i : nat) : num := of_Z (Z.of_nat i) * one / of_Z _bins.

(** The resolution the constructor keeps in [_rValue], and the decade width
    [W] it derives from it. *)
Definition effective_rValue (rValue : num) : num :=
  if rValue <? zero then Math_abs rValue else decimal 1 3.

Definition width (rValue linearMax : num) : num :=
  let W := (_M - Math_log10 (linearMax / Math_abs (effective_rValue rValue))) / two in
  if W <? zero then zero else W.

(** The cell test of the search loop. *)
Definition in_cell (lookup : list num) (linearValue : num) (i : nat) : bool :=
  (linearValue >=? elem lookup i) && (linearValue <? elem lookup (i + 1)).

(** The [index] that [translateToLinear] computes. *)
Definition table_index this (scaledValue : num) : num :=
  Math_floor (clamp_scale scaledValue / _resolution this).

End Vocabulary.

Section ExactVocabulary.

Local Open Scope R_scope.

Implicit Types (this : BiexponentialTranslator R) (s : solve_state R).


(** What the constructor leaves in the coefficient fields, in terms of
    [w = _x1], [b] and the root [d]. *)
Record coefficients this (linearMax : R) : Prop := {
  coef_b : _b this = 9 / 2 * ln 10;
  coef_w : 0 <= _x1 this;
  coef_W : _W this = 9 / 2 * _x1 this;
  coef_d : 0 < _d this <= _b this;
  coef_xTaylor : _xTaylor this = _x1 this + _x1 this / 4;
  coef_a :
    _a this
    = linearMax
      / (exp (_b this)
         - (exp (_b this * _x1 this)
            - exp (2 * _x1 this * (_b this + _d this)) / exp (_d this * _x1 this))
         - exp (2 * _x1 this * (_b this + _d this)) / exp (_d this));
  coef_c : _c this = exp (2 * _x1 this * (_b this + _d this)) * _a this;
  coef_f :
    _f this
    = - (exp (_b this * _x1 this)
         - exp (2 * _x1 this * (_b this + _d this)) / exp (_d this * _x1 this))
      * _a this
}.


End ExactVocabulary.

Section Binary64Vocabulary.

Local Open Scope Z_scope.

(** The positive binary64 values up to [2^10], and zero. *)
Definition below (x : spec_float) : Prop :=
  match x with
  | S754_zero false => True
  | S754_finite false m e => e <= 10 /\ Zpos m <= 2 ^ (10 - e)
  | _ => False
  end.

(** An index that passes both tests of [translateToLinear]. *)
Definition in_bins (i : float) : bool :=
  negb (PrimFloat.ltb i 0) && negb (PrimFloat.ltb 1024 i)
  && PrimFloat.leb 0 i && PrimFloat.leb i 1024.

End Binary64Vocabulary.

Section CacheVocabulary.

Context {num : Type} {N : JSNumber num}.
Variable Number_toString : num -> string.

Implicit Types (σ : store (num := num)).

(** Every address the map holds names an object of the heap, and no two keys
    share an address. *)
Definition well_formed σ : Prop :=
  (forall (k : string) (a : address),
      translators σ !! k = Some a -> (a < List.length (heap σ))%nat)
  /\ (forall (k1 k2 : string) (a : address),
        translators σ !! k1 = Some a -> translators σ !! k2 = Some a -> k1 = k2).

(** The calls that follow one another, each on the store the one before
    left (a call that throws leaves the store as it was). *)
Fixpoint run (calls : list (num * num)) σ : store :=
  match calls with
  | [] => σ
  | (rValue, linearMax) :: rest => run rest (snd (constructBiExponentialTranslator Number_toString rValue linearMax σ))
  end.

End CacheVocabulary.

(** The separator of the cache key. *)
Definition underscore : ascii := "_"%char.

Fixpoint has_underscore (s : string) : bool :=
  match s with
  | EmptyString => false
  | String c s' => Ascii.eqb c underscore || has_underscore s'
  end.

Section Binary64Signs.

(** The binary64 values above zero, and those that are not: the zeros, the
    values below zero and [NaN]. *)
Definition above_zero (x : spec_float) : Prop :=
  match x with
  | S754_finite false _ _ | S754_infinity false => True
  | _ => False
  end.

Definition not_above_zero (x : spec_float) : Prop :=
  match x with
  | S754_finite false _ _ | S754_infinity false => False
  | _ => True
  end.

End Binary64Signs.

Section SolveVocabulary.

Context {num : Type} {N : JSNumber num}.
Local Open Scope js_scope.

Implicit Types (s : solve_state num).

(** The state with which the loop goes on after a pass that has not
    returned: [last_delta], [f], [last_f] and one end of the bracket are
    assigned. *)
Definition solve_next (w f_b : num) s : solve_state num :=
  let '(delta, d') := solve_step w s in
  let f' := two * Math_log d' + w * d' + f_b in
  {| d_lo := if f' <? zero then d' else d_lo s;
     d_hi := if f' <? zero then d_hi s else d';
     d := d';
     last_delta := delta;
     f := f';
     last_f := Some f' |}.

(** The state on entry to the pass with loop counter [i + 1], when the
    passes before it have gone on. *)
Fixpoint solve_entry (i : nat) (w f_b : num) s : solve_state num :=
  match i with
  | O => s
  | S i' => solve_entry i' w f_b (solve_next w f_b s)
  end.

(** Whether a pass returns: through any of the three exits. *)
Definition exits (w f_b : num) s : bool :=
  exit_condition NothingChanged w f_b s
  || exit_condition DesiredPrecision w f_b s
  || exit_condition RootOrStalled w f_b s.

End SolveVocabulary.

Section TableVocabulary.

Context {num : Type} {N : JSNumber num}.
Local Open Scope js_scope.

Implicit Types (this : BiexponentialTranslator num).






End TableVocabulary.

Section Binary64Transforms.

Local Open Scope float_scope.


(** Whether [translateFromLinear] steps down at the sample [i]: the double
    just below [lookup[i]] is sent above the image of [lookup[i]]. *)
Definition steps_down (this : BiexponentialTranslator float) (i : nat) : bool :=
  let linearValue := elem (_lookup this) i in
  let before := PrimFloat.next_down linearValue in
  (before <? linearValue)
  && (translateFromLinear this linearValue <? translateFromLinear this before).

(** Whether the table steps up at every index. *)
Definition lookup_increasing (this : BiexponentialTranslator float) : bool :=
  forallb (fun i => elem (_lookup this) i <? elem (_lookup this) (i + 1))
          (seq 0 (Z.to_nat _bins)).

End Binary64Transforms.

(** * Properties that hold for every [number] instance *)

Section ControlFlow.

Context {num : Type} {N : JSNumber num}.
Local Open Scope js_scope.

Implicit Types (this : BiexponentialTranslator num) (s : solve_state num).

(** ** [solve] *)

Lemma solve_degenerate (b w : num) :
  (w =? zero) = true -> solve b w = Normal b.
Proof. intros Hw. unfold solve. now rewrite Hw. Qed.

Lemma solve_pass_Return (w f_b : num) s (why : exit) (d' : num) :
  solve_pass w f_b s = Return why d' ->
  d' = snd (solve_step w s) /\ exit_condition why w f_b s = true.
Proof.
  unfold solve_pass, exit_condition, solve_step.
  destruct (bisects w s); cbn zeta beta iota.
  - destruct (_ =? d_lo s); [intros [= <- <-]; auto|].
    destruct (Math_abs _ <? _EPSILON); [intros [= <- <-]; auto|].
    destruct (_ || _) eqn:E; [intros [= <- <-]; auto | discriminate].
  - destruct (_ =? d s); [intros [= <- <-]; auto|].
    destruct (Math_abs _ <? _EPSILON); [intros [= <- <-]; auto|].
    destruct (_ || _) eqn:E; [intros [= <- <-]; auto | discriminate].
Qed.

Lemma solve_loop_Normal (n : nat) (w f_b : num) s (r : num) :
  solve_loop n w f_b s = Normal r <->
  exists (i : nat) s' (why : exit),
    (i < n)%nat /\ state_after i w f_b s = Some s'
    /\ solve_pass w f_b s' = Return why r.
Proof.
  revert s. induction n as [|n IH]; intros s; cbn [solve_loop].
  - split; [discriminate | intros (i & _ & _ & Hi & _); lia].
  - destruct (solve_pass w f_b s) as [why r'|s1] eqn:E.
    + split.
      * intros [= ->]. exists 0%nat, s, why. repeat split; [lia | exact E].
      * intros (i & s' & why' & _ & Hs & Hp). destruct i as [|i]; cbn in Hs.
        -- injection Hs as <-. rewrite E in Hp. now injection Hp as _ ->.
        -- now rewrite E in Hs.
    + rewrite IH. split.
      * intros (i & s' & why & Hi & Hs & Hp). exists (S i), s', why.
        cbn [state_after]. rewrite E. repeat split; [lia | exact Hs | exact Hp].
      * intros (i & s' & why & Hi & Hs & Hp). destruct i as [|i]; cbn in Hs.
        -- injection Hs as <-. now rewrite E in Hp.
        -- rewrite E in Hs. exists i, s', why. repeat split; [lia | exact Hs | exact Hp].
Qed.

Lemma solve_loop_Throw (n : nat) (w f_b : num) s (e : Error num) :
  solve_loop n w f_b s = Throw e <->
  e = ExceededMaximumIterations /\ exists s', state_after n w f_b s = Some s'.
Proof.
  revert s. induction n as [|n IH]; intros s; cbn [solve_loop state_after].
  - split; [intros [= <-]; eauto | now intros [-> _]].
  - destruct (solve_pass w f_b s) as [why r'|s1] eqn:E.
    + split; [discriminate | now intros [_ [s' Hs]]].
    + apply IH.
Qed.

(** ** The constructor *)

Lemma inverse_same_coefficients this this' (scale : num) :
  same_coefficients this this' -> inverse this scale = inverse this' scale.
Proof.
  intros (Ha & Hb & Hc & Hd & Hf & Hx & Hxt & Ht).
  unfold inverse, seriesBiexponential, biexponential.
  now rewrite Ha, Hb, Hc, Hd, Hf, Hx, Hxt, Ht.
Qed.

Lemma construct_Normal (rValue linearMax : num) this :
  construct rValue linearMax = Normal this ->
  let W := width rValue linearMax in
  let w := W / _M in
  let x1 := zero + w in
  let x0 := zero + two * w in
  let b := _M * LN_10 in
  exists d : num,
    solve b w = Normal d
    /\ let c_a := Math_exp (x0 * (b + d)) in
       let mf_a := Math_exp (b * x1) - c_a / Math_exp (d * x1) in
       let a := linearMax / ((Math_exp b - mf_a) - c_a / Math_exp d) in
       _rValue this = effective_rValue rValue
       /\ _T this = linearMax /\ _W this = W /\ _x1 this = x1 /\ _b this = b
       /\ _d this = d /\ _a this = a /\ _c this = c_a * a /\ _f this = - mf_a * a
       /\ _xTaylor this = x1 + w / of_Z 4
       /\ _taylor this
          = <[1%nat := zero]>
              (taylor_loop b d (seq 0 16) (a * Math_exp (b * x1))
                 (- (c_a * a) / Math_exp (d * x1)))
       /\ _lookup this = map (fun i => inverse this (logicleValue i))
                             (seq 0 (Z.to_nat _bins + 1))
       /\ _resolution this = _M / of_Z _bins
       /\ scale this = Biexponential
       /\ min this = (if rValue <? zero then elem (_lookup this) 0 else zero)
       /\ max this = (if rValue <? zero then linearMax else zero).
Proof.
  unfold construct. fold (effective_rValue rValue).
  change ((if (_M - Math_log10 (linearMax / Math_abs (effective_rValue rValue))) / two <? zero
           then zero
           else (_M - Math_log10 (linearMax / Math_abs (effective_rValue rValue))) / two))
    with (width rValue linearMax).
  cbv zeta.
  destruct (solve _ _) as [d|e]; [|discriminate].
  intros H.
  apply (f_equal (fun c => match c with Normal t => t | Throw _ => this end)) in H.
  cbv beta iota in H. subst this. exists d. split; [reflexivity|].
  cbn [_rValue _T _W _x1 _b _d _a _c _f _xTaylor _taylor _lookup _resolution scale min max].
  repeat (split; [reflexivity|]). reflexivity.
Qed.

(** The constructor throws exactly when [solve] does. *)
Lemma construct_solve (rValue linearMax : num) :
  match solve (_M * LN_10) (width rValue linearMax / _M) with
  | Normal _ => exists this, construct rValue linearMax = Normal this
  | Throw e => construct rValue linearMax = Throw e
  end.
Proof.
  unfold construct. fold (effective_rValue rValue).
  change ((if (_M - Math_log10 (linearMax / Math_abs (effective_rValue rValue))) / two <? zero
           then zero
           else (_M - Math_log10 (linearMax / Math_abs (effective_rValue rValue))) / two))
    with (width rValue linearMax).
  cbv zeta. destruct (solve _ _) as [d|e]; [eexists|]; reflexivity.
Qed.

Lemma taylor_loop_length (b d : num) (indices : list nat) (posCoef negCoef : num) :
  List.length (taylor_loop b d indices posCoef negCoef) = List.length indices.
Proof.
  revert posCoef negCoef. induction indices as [|i rest IH]; intros; cbn; [|rewrite IH]; reflexivity.
Qed.

Lemma construct_taylor_length (rValue linearMax : num) this :
  construct rValue linearMax = Normal this -> List.length (_taylor this) = 16%nat.
Proof.
  intros H. apply construct_Normal in H. cbv zeta in H. destruct H as (d & _ & _ & _ & _ & _ & _ & _ & _ & _ & _ & _ & Ht & _).
  rewrite Ht, length_insert, taylor_loop_length. reflexivity.
Qed.

Lemma construct_taylor_1 (rValue linearMax : num) this :
  construct rValue linearMax = Normal this -> elem (_taylor this) 1 = zero.
Proof.
  intros H. apply construct_Normal in H. cbv zeta in H. destruct H as (d & _ & _ & _ & _ & _ & _ & _ & _ & _ & _ & _ & Ht & _).
  rewrite Ht. reflexivity.
Qed.

Lemma construct_lookup_length (rValue linearMax : num) this :
  construct rValue linearMax = Normal this ->
  List.length (_lookup this) = (Z.to_nat _bins + 1)%nat.
Proof.
  intros H. apply construct_Normal in H. cbv zeta in H.
  destruct H as (d & _ & _ & _ & _ & _ & _ & _ & _ & _ & _ & _ & _ & Hl & _).
  rewrite Hl, length_map, length_seq. reflexivity.
Qed.


(** ** [translateFromLinear] *)

Lemma translateFromLinear_low this (linearValue : num) :
  (linearValue <=? elem (_lookup this) 0) = true ->
  translateFromLinear this linearValue = zero.
Proof. intros H. unfold translateFromLinear. cbv zeta. now rewrite H. Qed.

Lemma translateFromLinear_high this (linearValue : num) :
  (linearValue <=? elem (_lookup this) 0) = false ->
  (linearValue >? elem (_lookup this) (Z.to_nat (_bins - 1))) = true ->
  translateFromLinear this linearValue = _M.
Proof. intros H1 H2. unfold translateFromLinear. cbv zeta. now rewrite H1, H2. Qed.

Lemma search_found (lookup : list num) (linearValue : num) (a n i : nat) :
  (a <= i < a + n)%nat ->
  (forall j, (a <= j < i)%nat -> in_cell lookup linearValue j = false) ->
  in_cell lookup linearValue i = true ->
  search lookup linearValue (seq a n) = Z.of_nat i.
Proof.
  revert a. induction n as [|n IH]; intros a Hi Hbefore Hcell; [lia|].
  cbn [seq search]. fold (in_cell lookup linearValue a).
  destruct (Nat.eq_dec a i) as [->|Hne]; [now rewrite Hcell|].
  rewrite Hbefore by lia. apply IH; [lia | intros j Hj; apply Hbefore; lia | exact Hcell].
Qed.

(** A value in the first cell is sent to [0]. *)
Lemma translateFromLinear_first_cell this (linearValue : num) :
  (2 <= List.length (_lookup this))%nat ->
  (linearValue <=? elem (_lookup this) 0) = false ->
  (linearValue >? elem (_lookup this) (Z.to_nat (_bins - 1))) = false ->
  in_cell (_lookup this) linearValue 0 = true ->
  translateFromLinear this linearValue = zero.
Proof.
  intros Hlen H1 H2 Hcell. unfold translateFromLinear. cbv zeta. rewrite H1, H2.
  rewrite (@search_found _ _ 0 _ 0) by (lia || easy). reflexivity.
Qed.

(** A value found in the cell [[lookup[i], lookup[i + 1])] with [0 < i] is
    placed by the slope of the cell below, [[lookup[i - 1], lookup[i]]]. *)
Lemma translateFromLinear_cell this (linearValue : num) (i : nat) :
  (0 < i < List.length (_lookup this) - 1)%nat -> (Z.of_nat i < _bins)%Z ->
  (linearValue <=? elem (_lookup this) 0) = false ->
  (linearValue >? elem (_lookup this) (Z.to_nat (_bins - 1))) = false ->
  (forall j, (j < i)%nat -> in_cell (_lookup this) linearValue j = false) ->
  in_cell (_lookup this) linearValue i = true ->
  translateFromLinear this linearValue
  = ((linearValue - elem (_lookup this) (i - 1))
       / (elem (_lookup this) i - elem (_lookup this) (i - 1))
     + of_Z (Z.of_nat i) - one) * _resolution this.
Proof.
  intros Hi Hbins H1 H2 Hbefore Hcell. unfold translateFromLinear. cbv zeta.
  rewrite H1, H2.
  rewrite (@search_found _ _ 0 _ i) by (lia || (intros; apply Hbefore; lia) || easy).
  destruct (Z.eqb_spec (Z.of_nat i) 0) as [E|_]; [lia|].
  destruct (Z.ltb_spec (Z.of_nat i) 0) as [E|_]; [lia|].
  destruct (Z.geb_spec (Z.of_nat i) _bins) as [E|_]; [lia|].
  destruct (Z.gtb_spec (Z.of_nat i) 0) as [_|E]; [|lia].
  replace (Z.to_nat (Z.of_nat i - 1)) with (i - 1)%nat by lia.
  now rewrite Nat2Z.id.
Qed.

(** ** [translateToLinear] *)

Lemma translateToLinear_Normal this (scaledValue : num) :
  (table_index this scaledValue <? zero) = false ->
  (table_index this scaledValue >? of_Z _bins) = false ->
  exists linearValue, translateToLinear this scaledValue = Normal linearValue.
Proof.
  unfold table_index, translateToLinear. cbv zeta. intros -> ->. eexists. reflexivity.
Qed.

End ControlFlow.

(** * The exact reading *)

Section ExactArithmetic.

Local Open Scope R_scope.

Implicit Types (this : BiexponentialTranslator R) (s : solve_state R).

Lemma ltb_true (x y : R) : Exact.ltb x y = true <-> x < y.
Proof. unfold Exact.ltb. destruct (Rlt_dec x y); split; (easy || lra). Qed.

Lemma ltb_false (x y : R) : Exact.ltb x y = false <-> y <= x.
Proof. unfold Exact.ltb. destruct (Rlt_dec x y); split; (easy || lra). Qed.

Lemma leb_true (x y : R) : Exact.leb x y = true <-> x <= y.
Proof. unfold Exact.leb. destruct (Rle_dec x y); split; (easy || lra). Qed.

Lemma leb_false (x y : R) : Exact.leb x y = false <-> y < x.
Proof. unfold Exact.leb. destruct (Rle_dec x y); split; (easy || lra). Qed.

Lemma eqb_true (x y : R) : Exact.eqb x y = true <-> x = y.
Proof. unfold Exact.eqb. destruct (Req_dec_T x y); split; (easy || lra). Qed.

Lemma eqb_false (x y : R) : Exact.eqb x y = false <-> x <> y.
Proof. unfold Exact.eqb. destruct (Req_dec_T x y); split; (easy || lra). Qed.

Lemma zero_exact : @zero R _ = 0.
Proof. reflexivity. Qed.

Lemma one_exact : @one R _ = 1.
Proof. reflexivity. Qed.

Lemma two_exact : @two R _ = 2.
Proof. reflexivity. Qed.

Lemma M_exact : @_M R _ = 9 / 2.
Proof. unfold _M, decimal. cbn. lra. Qed.

Lemma bins_exact : @of_Z R _ _bins = 1024.
Proof. reflexivity. Qed.

Lemma EPSILON_exact : @_EPSILON R _ = / 1000000000000.
Proof. unfold _EPSILON, decimal. cbn. lra. Qed.


Lemma ln_10_pos : 0 < ln 10.
Proof. rewrite <- ln_1. apply ln_increasing; lra. Qed.

(** ** The bracket of [solve] *)






(** ** The coefficients *)





Section Coefficients.

Variables (this : BiexponentialTranslator R) (linearMax : R).
Hypothesis Hcoef : coefficients this linearMax.

Let w := _x1 this.
Let b := _b this.
Let r := _d this.
Let c_a := exp (2 * w * (b + r)).
Let mf_a := exp (b * w) - c_a / exp (r * w).

Lemma biexponential_factored (scale : R) :
  biexponential this scale
  = _a this * (exp (b * scale) - mf_a - c_a / exp (r * scale)).
Proof.
  unfold biexponential. cbn [nadd nsub nmul ndiv Math_exp real_number].
  rewrite (coef_f Hcoef), (coef_c Hcoef). fold w b r c_a mf_a.
  pose proof (exp_pos (r * scale)). field. lra.
Qed.

(** Continuity at [x1]: there the growing exponential (with the offset [f])
    and the decaying one cancel, so the closed form is [0] and agrees with
    its own reflection. *)
Lemma biexponential_x1 : biexponential this (_x1 this) = 0.
Proof.
  rewrite biexponential_factored. fold w. unfold mf_a.
  pose proof (exp_pos (r * w)). field. lra.
Qed.




Hypothesis Hw1 : _x1 this < 1.



Hypothesis HT : 0 < linearMax.





End Coefficients.

(** ** [inverse] *)

Lemma inverse_closed_form this (scale : R) :
  _x1 this <= _xTaylor this -> _xTaylor this <= scale ->
  inverse this scale = biexponential this scale.
Proof.
  intros Hx Hs. unfold inverse. cbn [nlt nsub nmul nopp real_number].
  assert (E1 : Exact.ltb scale (_x1 this) = false) by (apply ltb_false; lra).
  rewrite E1.
  assert (E2 : Exact.ltb scale (_xTaylor this) = false) by (apply ltb_false; lra).
  now rewrite E2.
Qed.






Lemma inverse_x1 this (linearMax : R) :
  coefficients this linearMax -> _x1 this = 0 -> inverse this (_x1 this) = 0.
Proof.
  intros Hc Hw. pose proof (coef_xTaylor Hc) as E.
  rewrite inverse_closed_form by lra. apply (biexponential_x1 Hc).
Qed.


(** ** Inputs whose decade width is clamped *)

Lemma ln_100000 : ln 100000 = 5 * ln 10.
Proof.
  replace 100000 with (10 ^ 5) by (simpl; lra).
  rewrite ln_pow by lra. simpl. lra.
Qed.

(** [linearMax / rValue >= 10^5], above the [10^4.5] from which [W] is
    clamped to [0]. *)
Lemma width_clamped (rValue linearMax : R) :
  100000 <= linearMax / Rabs (effective_rValue rValue) ->
  width rValue linearMax = 0.
Proof.
  intros H. unfold width. cbv zeta.
  cbn [nlt nsub ndiv Math_log10 Math_abs real_number].
  rewrite M_exact, two_exact, zero_exact.
  assert (Hln : 5 * ln 10 <= ln (linearMax / Rabs (effective_rValue rValue))).
  { rewrite <- ln_100000. destruct H as [H|H].
    - left. apply ln_increasing; lra.
    - rewrite <- H. lra. }
  pose proof ln_10_pos as H10.
  assert (Hlog : 5 <= Exact.log10 (linearMax / Rabs (effective_rValue rValue))).
  { unfold Exact.log10. apply (Rmult_le_reg_r (ln 10)); [exact H10|].
    unfold Rdiv. rewrite Rmult_assoc, Rinv_l by lra. lra. }
  assert (E : Exact.ltb ((9 / 2 - Exact.log10 (linearMax / Rabs (effective_rValue rValue))) / 2) 0 = true)
    by (apply ltb_true; lra).
  now rewrite E.
Qed.

Lemma construct_clamped (rValue linearMax : R) :
  width rValue linearMax = 0 ->
  exists this, construct rValue linearMax = Normal this /\ _x1 this = 0.
Proof.
  intros HW. pose proof (construct_solve rValue linearMax) as H.
  rewrite solve_degenerate in H.
  - destruct H as [this H]. exists this. split; [exact H|].
    apply construct_Normal in H. cbv zeta in H.
    destruct H as (r & _ & _ & _ & _ & Hx1 & _).
    rewrite Hx1, HW. cbn [nadd ndiv real_number]. rewrite zero_exact, M_exact. lra.
  - rewrite HW. cbn [neq ndiv real_number]. apply eqb_true.
    rewrite zero_exact, M_exact. lra.
Qed.

Lemma effective_rValue_minus_1 : effective_rValue (-1) = 1.
Proof.
  unfold effective_rValue. cbn [nlt Math_abs real_number].
  assert (E : Exact.ltb (-1) zero = true) by (apply ltb_true; rewrite zero_exact; lra).
  rewrite E, Rabs_left by lra. lra.
Qed.

(** A transform that exists in exact arithmetic: [new
    BiexponentialTranslator(-1, 100000)]. *)
Lemma construct_minus_1_100000 :
  exists this, construct (-1) 100000 = Normal this /\ _x1 this = 0.
Proof.
  apply construct_clamped, width_clamped.
  rewrite effective_rValue_minus_1, Rabs_R1. lra.
Qed.

(** ** The lookup table *)




(** ** [translateToLinear] *)

Lemma clamp_scale_range (scaledValue : R) : 0 <= clamp_scale scaledValue <= 9 / 2.
Proof.
  unfold clamp_scale. cbn [nlt real_number]. fold (@_M R _). rewrite M_exact, zero_exact.
  destruct (Exact.ltb scaledValue 0) eqn:E1; [lra|].
  destruct (Exact.ltb (9 / 2) scaledValue) eqn:E2; [lra|].
  apply ltb_false in E1, E2. lra.
Qed.

Lemma table_index_range this (scaledValue : R) :
  _resolution this = _M / of_Z _bins ->
  0 <= table_index this scaledValue <= 1024.
Proof.
  intros Hres. unfold table_index. rewrite Hres.
  cbn [ndiv of_Z Math_floor real_number]. rewrite M_exact. change (IZR _bins) with 1024.
  pose proof (clamp_scale_range scaledValue) as Hc.
  set (x := clamp_scale scaledValue / (9 / 2 / 1024)).
  assert (Hx : 0 <= x <= 1024).
  { unfold x. split.
    - apply Rmult_le_pos; [lra|]. left. apply Rinv_0_lt_compat. lra.
    - apply (Rmult_le_reg_r (9 / 2 / 1024)); [lra|].
      unfold Rdiv at 1. rewrite Rmult_assoc, Rinv_l by lra. lra. }
  unfold Exact.floor. split.
  - apply IZR_le, Zfloor_lub. simpl. lra.
  - pose proof (Zfloor_bound x). lra.
Qed.

Lemma translateToLinear_total this (scaledValue : R) :
  _resolution this = _M / of_Z _bins ->
  exists linearValue, translateToLinear this scaledValue = Normal linearValue.
Proof.
  intros Hres. pose proof (table_index_range this scaledValue Hres) as [H0 H1].
  apply translateToLinear_Normal; cbn [nlt of_Z real_number].
  - apply ltb_false. now rewrite zero_exact.
  - apply ltb_false. exact H1.
Qed.

(** The first table entry is what scale [0] translates to. *)
Lemma translateToLinear_0 this :
  _resolution this = _M / of_Z _bins ->
  translateToLinear this 0 = Normal (elem (_lookup this) 0).
Proof.
  intros Hres. unfold translateToLinear. cbv zeta.
  assert (Hc : clamp_scale 0 = 0).
  { unfold clamp_scale. cbn [nlt real_number]. fold (@_M R _). rewrite M_exact, zero_exact.
    assert (E1 : Exact.ltb 0 0 = false) by (apply ltb_false; lra).
    assert (E2 : Exact.ltb (9 / 2) 0 = false) by (apply ltb_false; lra).
    now rewrite E1, E2. }
  rewrite Hc, Hres. cbn [ndiv nadd nsub nmul nlt of_Z Math_floor to_index real_number].
  rewrite M_exact, zero_exact, one_exact. change (IZR _bins) with 1024.
  replace (0 / (9 / 2 / 1024)) with 0 by (field; lra).
  unfold Exact.floor. change 0 with (IZR 0). rewrite ZfloorZ.
  assert (E1 : Exact.ltb 0 0 = false) by (apply ltb_false; lra).
  assert (E2 : Exact.ltb 1024 0 = false) by (apply ltb_false; lra).
  assert (E3 : Exact.ltb 0 1024 = true) by (apply ltb_true; lra).
  rewrite E1, E2, E3. cbn [orb]. f_equal. rewrite !(ZfloorZ 0).
  change (Z.to_nat 0) with 0%nat. lra.
Qed.


(** Every value strictly inside the first cell comes back as [lookup[0]]. *)
Lemma roundtrip_first_cell (rValue linearMax : R) this (x : R) :
  construct rValue linearMax = Normal this ->
  elem (_lookup this) 0 < x < elem (_lookup this) 1 ->
  x <= elem (_lookup this) (Z.to_nat (_bins - 1)) ->
  translateFromLinear this x = 0
  /\ translateToLinear this (translateFromLinear this x) = Normal (elem (_lookup this) 0).
Proof.
  intros H Hx Hlast.
  assert (E : translateFromLinear this x = 0).
  { change (translateFromLinear this x = zero). apply translateFromLinear_first_cell.
    - rewrite (construct_lookup_length _ _ H). unfold _bins. lia.
    - apply leb_false. lra.
    - apply ltb_false. exact Hlast.
    - unfold in_cell. change (0 + 1)%nat with 1%nat.
      apply andb_true_intro. split; [apply leb_true | apply ltb_true]; lra. }
  split; [exact E|]. rewrite E. apply translateToLinear_0.
  apply construct_Normal in H. cbv zeta in H.
  now destruct H as (r & _ & _ & _ & _ & _ & _ & _ & _ & _ & _ & _ & _ & _ & Hres & _).
Qed.

End ExactArithmetic.

(** * The binary64 reading of [translateToLinear] *)

(** The index is bounded without appeal to the real numbers: the quotient
    [scaledValue / _resolution] is followed through the rounding of the
    IEEE division as [SpecFloat] defines it. *)
Section Binary64.

Local Open Scope Z_scope.
Local Unset Implicit Arguments.

Lemma digits2_pos_lower (p : positive) : 2 ^ (Zpos (digits2_pos p) - 1) <= Zpos p.
Proof.
  induction p as [p IH|p IH|]; cbn [digits2_pos].
  - rewrite Pos2Z.inj_succ. replace (Z.succ (Zpos (digits2_pos p)) - 1) with (Z.succ (Zpos (digits2_pos p) - 1)) by lia.
    rewrite Z.pow_succ_r by lia. lia.
  - rewrite Pos2Z.inj_succ. replace (Z.succ (Zpos (digits2_pos p)) - 1) with (Z.succ (Zpos (digits2_pos p) - 1)) by lia.
    rewrite Z.pow_succ_r by lia. lia.
  - reflexivity.
Qed.

Lemma digits2_pos_upper (p : positive) : Zpos p < 2 ^ Zpos (digits2_pos p).
Proof.
  induction p as [p IH|p IH|]; cbn [digits2_pos].
  - rewrite Pos2Z.inj_succ, Z.pow_succ_r by lia. lia.
  - rewrite Pos2Z.inj_succ, Z.pow_succ_r by lia. lia.
  - reflexivity.
Qed.

Lemma pow2_double (k : Z) : 0 <= k -> 2 ^ (2 * k) = 2 ^ k * 2 ^ k.
Proof. intros Hk. rewrite <- Z.pow_add_r by lia. f_equal. lia. Qed.

Lemma shr_1_m (mrs : shr_record) :
  0 <= shr_m mrs -> shr_m (shr_1 mrs) = shr_m mrs / 2.
Proof.
  destruct mrs as [m r s]. cbn [shr_m]. intros Hm. unfold shr_1.
  destruct m as [|[p|p|]|p]; cbn [shr_m]; Z.div_mod_to_equations; lia.
Qed.

Lemma shr_1_r (mrs : shr_record) :
  0 <= shr_m mrs -> shr_r (shr_1 mrs) = true -> shr_m mrs mod 2 <> 0.
Proof.
  destruct mrs as [m r s]. cbn [shr_m]. intros Hm. unfold shr_1.
  destruct m as [|[p|p|]|p]; cbn [shr_r]; try discriminate; Z.div_mod_to_equations; lia.
Qed.

Lemma iter_pos_shr_1 (p : positive) (mrs : shr_record) :
  0 <= shr_m mrs ->
  shr_m (SpecFloat.iter_pos shr_1 p mrs) = shr_m mrs / 2 ^ Zpos p
  /\ (shr_r (SpecFloat.iter_pos shr_1 p mrs) = true -> shr_m mrs mod 2 ^ Zpos p <> 0).
Proof.
  revert mrs. induction p as [p IH|p IH|]; intros mrs Hm; cbn [SpecFloat.iter_pos].
  - pose proof (shr_1_m mrs Hm) as H1. pose proof (shr_1_r mrs Hm) as R1.
    assert (H1pos : 0 <= shr_m (shr_1 mrs)) by (rewrite H1; apply Z.div_pos; lia).
    destruct (IH _ H1pos) as [H2 R2].
    assert (H2pos : 0 <= shr_m (SpecFloat.iter_pos shr_1 p (shr_1 mrs))) by (rewrite H2; apply Z.div_pos; lia).
    destruct (IH _ H2pos) as [H3 R3].
    rewrite Pos2Z.inj_xI.
    replace (2 ^ (2 * Zpos p + 1)) with (2 * 2 ^ Zpos p * 2 ^ Zpos p)
      by (rewrite Z.pow_add_r, pow2_double by lia; change (2 ^ 1) with 2; lia).
    split.
    + rewrite H3, H2, H1. rewrite !Z.div_div by lia. f_equal. lia.
    + intros Hr. specialize (R3 Hr). rewrite H2, H1 in R3. intros Hz. apply R3.
      apply Z.mod_divide in Hz; [|lia]. destruct Hz as [k Hk]. rewrite Hk.
      replace (k * (2 * 2 ^ Zpos p * 2 ^ Zpos p)) with ((k * 2 ^ Zpos p * 2 ^ Zpos p) * 2) by lia.
      rewrite Z.div_mul by lia. rewrite Z.div_mul by lia. apply Z.mod_mul. lia.
  - destruct (IH _ Hm) as [H2 R2].
    assert (H2pos : 0 <= shr_m (SpecFloat.iter_pos shr_1 p mrs)) by (rewrite H2; apply Z.div_pos; lia).
    destruct (IH _ H2pos) as [H3 R3].
    change (Z.pos p~0) with (2 * Z.pos p). rewrite pow2_double by lia.
    split.
    + rewrite H3, H2. rewrite !Z.div_div by lia. reflexivity.
    + intros Hr. specialize (R3 Hr). rewrite H2 in R3. intros Hz. apply R3.
      apply Z.mod_divide in Hz; [|lia]. destruct Hz as [k Hk]. rewrite Hk.
      rewrite Z.mul_assoc. rewrite Z.div_mul by lia. apply Z.mod_mul. lia.
  - split; [apply shr_1_m, Hm | apply shr_1_r, Hm].
Qed.

Lemma loc_of_shr_record_of_loc (m : Z) (l : location) :
  loc_of_shr_record (shr_record_of_loc m l) = l.
Proof. destruct l as [|[]]; reflexivity. Qed.

Lemma round_nearest_even_range (m : Z) (l : location) :
  round_nearest_even m l = m
  \/ (round_nearest_even m l = m + 1 /\ (l = loc_Inexact Eq \/ l = loc_Inexact Gt)).
Proof.
  destruct l as [|[]]; cbn; auto. destruct (Z.even m); auto.
Qed.

Lemma loc_of_shr_record_r (mrs : shr_record) :
  loc_of_shr_record mrs = loc_Inexact Eq \/ loc_of_shr_record mrs = loc_Inexact Gt ->
  shr_r mrs = true.
Proof. destruct mrs as [m [] []]; cbn; intros [H|H]; congruence. Qed.

Lemma pow2_le (a b : Z) : 0 <= a -> 2 ^ a <= 2 ^ b -> a <= b.
Proof.
  intros Ha H. destruct (Z.le_gt_cases a b) as [|Hlt]; [assumption|].
  assert (0 <= b \/ b < 0) as [Hb|Hb] by lia.
  - apply (Z.pow_lt_mono_r 2) in Hlt; lia.
  - rewrite (Z.pow_neg_r 2 b) in H by lia. pose proof (Z.pow_pos_nonneg 2 a). lia.
Qed.

Lemma fexp_digits_le (q e' : Z) :
  e' <= 10 -> 0 <= q <= 2 ^ (10 - e') ->
  fexp prec emax (Zdigits2 q + e') <= 10.
Proof.
  intros He [Hq0 Hq]. unfold fexp, emin, prec, emax.
  destruct q as [|p|p]; cbn [Zdigits2]; [lia | | lia].
  pose proof (digits2_pos_lower p) as Hl.
  assert (Zpos (digits2_pos p) - 1 <= 10 - e') by (apply pow2_le; lia).
  lia.
Qed.

Lemma div_pow2_le (q a p : Z) :
  0 <= p <= a -> 0 <= q <= 2 ^ a -> 0 <= q / 2 ^ p <= 2 ^ (a - p).
Proof.
  intros Hp Hq. assert (H2 : 0 < 2 ^ p) by (apply Z.pow_pos_nonneg; lia).
  split; [apply Z.div_pos; lia|].
  replace (2 ^ a) with (2 ^ (a - p) * 2 ^ p) in Hq
    by (rewrite <- Z.pow_add_r by lia; f_equal; lia).
  apply Z.div_le_upper_bound; lia.
Qed.

Lemma div_pow2_lt (q a p : Z) :
  0 <= p <= a -> 0 <= q <= 2 ^ a -> q mod 2 ^ p <> 0 -> q / 2 ^ p < 2 ^ (a - p).
Proof.
  intros Hp Hq Hmod. assert (H2 : 0 < 2 ^ p) by (apply Z.pow_pos_nonneg; lia).
  pose proof (div_pow2_le q a p Hp Hq) as [_ Hle].
  destruct (Z.eq_dec (q / 2 ^ p) (2 ^ (a - p))) as [E|]; [|lia].
  exfalso. apply Hmod.
  assert (Ha : 2 ^ a = 2 ^ (a - p) * 2 ^ p)
    by (rewrite <- Z.pow_add_r by lia; f_equal; lia).
  pose proof (Z.div_mod q (2 ^ p) ltac:(lia)) as Hdm.
  pose proof (Z.mod_pos_bound q (2 ^ p) H2) as Hb.
  rewrite E in Hdm. nia.
Qed.

Lemma round_below (q e' : Z) (l : location) :
  e' <= 10 -> 0 <= q <= 2 ^ (10 - e') ->
  (l <> loc_Exact -> q < 2 ^ (10 - e')) ->
  below (binary_round_aux prec emax false q e' l).
Proof.
  intros He Hq Hl.
  pose proof (fexp_digits_le q e' He Hq) as HE1.
  unfold binary_round_aux, shr_fexp.
  (* first shift *)
  assert (Hstage1 :
    let '(mrs', E1) := shr (shr_record_of_loc q l) e' (fexp prec emax (Zdigits2 q + e') - e') in
    E1 <= 10 /\ 0 <= round_nearest_even (shr_m mrs') (loc_of_shr_record mrs') <= 2 ^ (10 - E1)).
  { unfold shr. destruct (fexp prec emax (Zdigits2 q + e') - e') as [|p|p] eqn:En.
    - rewrite loc_of_shr_record_of_loc.
      replace (shr_m (shr_record_of_loc q l)) with q by (destruct l as [|[]]; reflexivity).
      split; [lia|]. destruct (round_nearest_even_range q l) as [->|[-> Hl']]; [lia|].
      assert (l <> loc_Exact) by (destruct Hl' as [-> | ->]; discriminate). specialize (Hl H). lia.
    - assert (Hq' : 0 <= shr_m (shr_record_of_loc q l)) by (destruct l as [|[]]; cbn; lia).
      destruct (iter_pos_shr_1 p _ Hq') as [Hm Hr].
      replace (shr_m (shr_record_of_loc q l)) with q in Hm, Hr by (destruct l as [|[]]; reflexivity).
      split; [lia|].
      assert (Hp : 0 <= Zpos p <= 10 - e') by lia.
      pose proof (div_pow2_le q (10 - e') (Zpos p) Hp Hq) as Hle.
      replace (10 - (e' + Zpos p)) with (10 - e' - Zpos p) by lia.
      destruct (round_nearest_even_range (shr_m (SpecFloat.iter_pos shr_1 p (shr_record_of_loc q l)))
                  (loc_of_shr_record (SpecFloat.iter_pos shr_1 p (shr_record_of_loc q l)))) as [->|[-> Hl']].
      + rewrite Hm. exact Hle.
      + apply loc_of_shr_record_r in Hl'. specialize (Hr Hl').
        pose proof (div_pow2_lt q (10 - e') (Zpos p) Hp Hq Hr). rewrite Hm. lia.
    - rewrite loc_of_shr_record_of_loc.
      replace (shr_m (shr_record_of_loc q l)) with q by (destruct l as [|[]]; reflexivity).
      split; [lia|]. destruct (round_nearest_even_range q l) as [->|[-> Hl']]; [lia|].
      assert (l <> loc_Exact) by (destruct Hl' as [-> | ->]; discriminate). specialize (Hl H). lia. }
  destruct (shr (shr_record_of_loc q l) e' (fexp prec emax (Zdigits2 q + e') - e')) as [mrs' E1].
  destruct Hstage1 as [HE1' HM2].
  set (M2 := round_nearest_even (shr_m mrs') (loc_of_shr_record mrs')) in *.
  (* second shift *)
  unfold shr. cbn [shr_record_of_loc].
  destruct (fexp prec emax (Zdigits2 M2 + E1) - E1) as [|p|p] eqn:En; cbn [shr_m].
  - destruct M2 as [|m|m]; [exact I | | lia].
    assert (E : (E1 <=? emax - prec) = true) by (apply Z.leb_le; unfold emax, prec; lia).
    rewrite E. split; [lia | exact (proj2 HM2)].
  - assert (H0 : 0 <= shr_m {| shr_m := M2; shr_r := false; shr_s := false |}) by (cbn; lia).
    destruct (iter_pos_shr_1 p _ H0) as [Hm _]. cbn [shr_m] in Hm. rewrite Hm.
    destruct (M2 / 2 ^ Zpos p) as [|m|m] eqn:Ed; [exact I | |].
    + assert (H2 : 0 < 2 ^ Zpos p) by (apply Z.pow_pos_nonneg; lia).
      assert (Hge : 2 ^ Zpos p <= M2).
      { destruct (Z.lt_ge_cases M2 (2 ^ Zpos p)) as [Hlt|]; [|assumption].
        rewrite Z.div_small in Ed by lia. discriminate. }
      assert (Hp : Zpos p <= 10 - E1) by (apply pow2_le; lia).
      assert (E : (E1 + Zpos p <=? emax - prec) = true) by (apply Z.leb_le; unfold emax, prec; lia).
      rewrite E. split; [lia|].
      pose proof (div_pow2_le M2 (10 - E1) (Zpos p) ltac:(lia) HM2) as [_ Hle].
      rewrite Ed in Hle. replace (10 - (E1 + Zpos p)) with (10 - E1 - Zpos p) by lia. exact Hle.
    + pose proof (Z.div_pos M2 (2 ^ Zpos p) ltac:(lia) ltac:(apply Z.pow_pos_nonneg; lia)). lia.
  - destruct M2 as [|m|m]; [exact I | | lia].
    assert (E : (E1 <=? emax - prec) = true) by (apply Z.leb_le; unfold emax, prec; lia).
    rewrite E. split; [lia | exact (proj2 HM2)].
Qed.

Lemma valid_finite (s : bool) (m : positive) (e : Z) :
  valid_binary (S754_finite s m e) = true ->
  Zpos m < 2 ^ 53 /\ (e = -1074 \/ 2 ^ 52 <= Zpos m).
Proof.
  cbn [valid_binary]. unfold SpecFloat.valid_binary, bounded, canonical_mantissa, fexp, SpecFloat.emin, prec, emax.
  intros H. apply andb_true_iff in H as [H _]. apply Z.eqb_eq in H.
  pose proof (digits2_pos_upper m) as Hu. pose proof (digits2_pos_lower m) as Hl.
  assert (Hd : Zpos (digits2_pos m) <= 53) by lia.
  split.
  - apply Z.lt_le_trans with (2 ^ Zpos (digits2_pos m)); [exact Hu|].
    apply Z.pow_le_mono_r; lia.
  - destruct (Z.eq_dec e (-1074)) as [|Hne]; [now left | right].
    assert (Zpos (digits2_pos m) = 53) by lia.
    replace 52 with (Zpos (digits2_pos m) - 1) by lia. exact Hl.
Qed.


Lemma div_below (m : positive) (e : Z) :
  valid_binary (S754_finite false m e) = true ->
  e < -50 \/ (e = -50 /\ Zpos m <= 5066549580791808) ->
  below (SFdiv prec emax (S754_finite false m e) (S754_finite false 5066549580791808 (-60))).
Proof.
  intros Hv Hle. destruct (valid_finite _ _ _ Hv) as [Hm _]. clear Hv.
  unfold SFdiv, SFdiv_core_binary. cbv zeta.
  change (Zdigits2 5066549580791808) with 53.
  match goal with |- context [IntDef.Z.min ?a ?b] => set (e' := IntDef.Z.min a b) end.
  assert (He' : e' <= e + 60).
  { unfold e'. set (fx := fexp _ _ _). clearbody fx. lia. }
  clearbody e'.
  set (s := e - -60 - e').
  assert (Hs : 0 <= s) by (unfold s; lia).
  match goal with |- context [IntDef.Z.div_eucl ?a _] => set (m' := a) end.
  assert (Hm' : m' = Zpos m * 2 ^ s).
  { unfold m'. destruct s as [|p|p] eqn:Es; [cbn; lia | | lia].
    apply Z.shiftl_mul_pow2. lia. }
  clearbody m'.
  pose proof (Z.div_eucl_eq m' 5066549580791808 ltac:(lia)) as Heq.
  pose proof (Z.mod_pos_bound m' 5066549580791808 ltac:(lia)) as Hr.
  unfold Z.modulo in Hr.
  destruct (IntDef.Z.div_eucl m' 5066549580791808) as [q r]. cbn [xorb].
  assert (H2s : 0 < 2 ^ s) by (apply Z.pow_pos_nonneg; lia).
  assert (Hbound : m' <= 5066549580791808 * 2 ^ (10 - e')).
  { replace (10 - e') with (s + (-50 - e)) by (unfold s; lia).
    rewrite Z.pow_add_r by lia. rewrite Hm'.
    assert (Zpos m <= 5066549580791808 * 2 ^ (-50 - e)).
    { destruct Hle as [Hlt|[-> Hle]].
      - assert (2 ^ 1 <= 2 ^ (-50 - e)) by (apply Z.pow_le_mono_r; lia).
        change (2 ^ 1) with 2 in *. change (2 ^ 53) with 9007199254740992 in Hm.
        lia.
      - change (2 ^ (-50 - -50)) with 1. lia. }
    rewrite (Z.mul_comm (2 ^ s)), Z.mul_assoc.
    apply Z.mul_le_mono_nonneg_r; lia. }
  assert (H2K : 0 < 2 ^ (10 - e')) by (apply Z.pow_pos_nonneg; lia).
  remember (2 ^ (10 - e')) as B eqn:HB.
  assert (Hq0 : 0 <= q) by nia.
  apply round_below.
  - lia.
  - rewrite <- HB. split; [exact Hq0 | nia].
  - rewrite <- HB. intros Hl.
    assert (Hr0 : r <> 0).
    { intros ->. apply Hl. reflexivity. }
    nia.
Qed.

Lemma small_integers (z : Z) : 0 <= z <= 1024 -> in_bins (Libm.of_Z z) = true.
Proof.
  intros Hz.
  assert (H : forallb (fun n => in_bins (Libm.of_Z (Z.of_nat n))) (seq 0 1025) = true)
    by (vm_compute; reflexivity).
  rewrite forallb_forall in H.
  specialize (H (Z.to_nat z)). rewrite Z2Nat.id in H by lia.
  apply H, in_seq. lia.
Qed.

Lemma floor_below (x : float) : below (Prim2SF x) -> in_bins (Libm.floor x) = true.
Proof.
  intros Hb. unfold Libm.floor. pose proof (Prim2SF_valid x) as Hv.
  pose proof (SF2Prim_Prim2SF x) as Hx.
  destruct (Prim2SF x) as [[|]|[|]| |[|] m e]; cbn [below] in Hb; try contradiction.
  - rewrite <- Hx. reflexivity.
  - destruct Hb as [He Hm]. destruct (valid_finite _ _ _ Hv) as [Hm53 Hcan]. clear Hv Hx.
    assert (Hneg : e < 0).
    { destruct Hcan as [->|H52]; [lia|].
      assert (2 ^ 52 <= 2 ^ (10 - e)) by lia.
      assert (52 <= 10 - e) by (apply pow2_le; lia). lia. }
    destruct e as [|p|p]; try lia.
    apply small_integers. rewrite Z.shiftr_div_pow2 by lia.
    assert (H2 : 0 < 2 ^ Zpos p) by (apply Z.pow_pos_nonneg; lia).
    split; [apply Z.div_pos; lia|].
    apply Z.div_le_upper_bound; [lia|].
    replace (10 - Zneg p) with (10 + Zpos p) in Hm by lia.
    rewrite Z.pow_add_r in Hm by lia. change (2 ^ 10) with 1024 in Hm. lia.
Qed.

Lemma is_nan_nan (x : float) : PrimFloat.is_nan x = true -> x = PrimFloat.nan.
Proof.
  unfold PrimFloat.is_nan. rewrite FloatAxioms.eqb_spec. intros H.
  rewrite <- (SF2Prim_Prim2SF x).
  destruct (Prim2SF x) as [b|b| |b m e]; [destruct b; discriminate H.. | reflexivity |].
  exfalso. unfold SFeqb, SFcompare in H. rewrite Z.compare_refl in H.
  match type of H with context [?f Eq m m] =>
    change (f Eq m m) with (Pos.compare m m) in H end.
  rewrite Pos.compare_refl in H. destruct b; discriminate H.
Qed.

(** The index of [translateToLinear] in binary64, for an argument that is
    not [NaN]. *)
Lemma table_index_binary64 (this : BiexponentialTranslator float) (s : float) :
  _resolution this = (_M / of_Z _bins)%js ->
  PrimFloat.is_nan s = false -> in_bins (table_index this s) = true.
Proof.
  intros Hres Hnan. unfold table_index. rewrite Hres.
  change (in_bins (Libm.floor (PrimFloat.div
            (if PrimFloat.ltb s 0 then 0%float
             else if PrimFloat.ltb 4.5 s then 4.5%float else s)
            0.00439453125%float)) = true).
  rewrite !FloatAxioms.ltb_spec.
  pose proof (Prim2SF_valid s) as Hv. pose proof (SF2Prim_Prim2SF s) as Hs.
  change (Prim2SF 0) with (S754_zero false).
  change (Prim2SF 4.5) with (S754_finite false 5066549580791808 (-50)).
  destruct (Prim2SF s) as [b|b| |b m e] eqn:E.
  - rewrite <- Hs. destruct b; reflexivity.
  - rewrite <- Hs. destruct b; reflexivity.
  - rewrite <- Hs in Hnan. discriminate Hnan.
  - destruct b; [reflexivity|]. cbn [SFltb SFcompare].
    destruct (-50 ?= e) eqn:Ec.
    + apply Z.compare_eq in Ec. subst e.
      match goal with |- context [?f Eq 5066549580791808%positive m] =>
        change (f Eq 5066549580791808%positive m) with (Pos.compare 5066549580791808 m) end.
      destruct (Pos.compare_spec 5066549580791808 m) as [Em|Em|Em]; [| reflexivity |].
      * apply floor_below. rewrite FloatAxioms.div_spec, E.
        change (Prim2SF 0.00439453125) with (S754_finite false 5066549580791808 (-60)).
        apply (div_below m (-50) Hv). right. split; [reflexivity|].
        subst m. apply Z.le_refl.
      * apply floor_below. rewrite FloatAxioms.div_spec, E.
        change (Prim2SF 0.00439453125) with (S754_finite false 5066549580791808 (-60)).
        apply (div_below m (-50) Hv). right. split; [reflexivity|].
        apply Z.lt_le_incl, Pos2Z.pos_lt_pos, Em.
    + reflexivity.
    + apply floor_below. rewrite FloatAxioms.div_spec, E.
      change (Prim2SF 0.00439453125) with (S754_finite false 5066549580791808 (-60)).
      apply (div_below m e Hv). left. apply Z.compare_gt_iff in Ec. lia.
Qed.

(** [translateToLinear] returns for every binary64 argument. *)
Lemma translateToLinear_binary64 (this : BiexponentialTranslator float) (s : float) :
  _resolution this = (_M / of_Z _bins)%js ->
  exists linearValue : float, translateToLinear this s = Normal linearValue.
Proof.
  intros Hres. destruct (PrimFloat.is_nan s) eqn:Hnan.
  - apply is_nan_nan in Hnan. subst s.
    unfold translateToLinear. rewrite Hres. eexists. reflexivity.
  - pose proof (table_index_binary64 this s Hres Hnan) as H. unfold in_bins in H.
    apply andb_true_iff in H as [H _]. apply andb_true_iff in H as [H _].
    apply andb_true_iff in H as [H1 H2].
    apply translateToLinear_Normal.
    + apply negb_true_iff in H1. exact H1.
    + apply negb_true_iff in H2. exact H2.
Qed.

End Binary64.

(** * The cache *)

Section CacheProperties.

Context {num : Type} {N : JSNumber num}.
Variable Number_toString : num -> string.

Implicit Types (σ : store (num := num)) (ref : option address).

Lemma well_formed_initial : well_formed (initial_store (num := num)).
Proof. split; intros *; cbn; now rewrite lookup_empty. Qed.

Lemma call_cases (rValue linearMax : num) σ :
  (exists a, translators σ !! key_of Number_toString rValue linearMax = Some a
             /\ constructBiExponentialTranslator Number_toString rValue linearMax σ = (Normal (Some a), σ))
  \/ (translators σ !! key_of Number_toString rValue linearMax = None
      /\ exists e, construct rValue linearMax = Throw e
                   /\ constructBiExponentialTranslator Number_toString rValue linearMax σ = (Throw e, σ))
  \/ (translators σ !! key_of Number_toString rValue linearMax = None
      /\ exists this, construct rValue linearMax = Normal this
           /\ constructBiExponentialTranslator Number_toString rValue linearMax σ
              = (Normal (Some (List.length (heap σ))),
                 {| heap := heap σ ++ [this];
                    translators := <[key_of Number_toString rValue linearMax := List.length (heap σ)]>
                                     (translators σ) |})).
Proof.
  unfold constructBiExponentialTranslator.
  destruct (translators σ !! key_of Number_toString rValue linearMax) as [a|] eqn:E.
  - left. exists a. split; reflexivity.
  - right. destruct (construct rValue linearMax) as [this|e].
    + right. split; [reflexivity|]. exists this. split; [reflexivity|].
      cbn [translators]. now rewrite lookup_insert_eq.
    + left. split; [reflexivity|]. exists e. split; reflexivity.
Qed.

Lemma call_well_formed (rValue linearMax : num) σ :
  well_formed σ ->
  well_formed (snd (constructBiExponentialTranslator Number_toString rValue linearMax σ)).
Proof.
  intros Hwf.
  destruct (call_cases rValue linearMax σ)
    as [(a & _ & ->)|[(_ & e & _ & ->)|(Hk & this & _ & ->)]]; cbn [snd]; try exact Hwf.
  destruct Hwf as [Hbound Hinj]. split.
  - intros k a. cbn [translators heap]. rewrite length_app. cbn [List.length].
    destruct (decide (k = key_of Number_toString rValue linearMax)) as [->|Hne].
    + rewrite lookup_insert_eq. intros [= <-]. lia.
    + rewrite lookup_insert_ne by congruence. intros Ha. apply Hbound in Ha. lia.
  - intros k1 k2 a. cbn [translators].
    destruct (decide (k1 = key_of Number_toString rValue linearMax)) as [->|Hne1];
      destruct (decide (k2 = key_of Number_toString rValue linearMax)) as [->|Hne2];
      rewrite ?lookup_insert_eq, ?lookup_insert_ne by congruence.
    + reflexivity.
    + intros [= <-] Ha. apply Hbound in Ha. lia.
    + intros Ha [= <-]. apply Hbound in Ha. lia.
    + apply Hinj.
Qed.

(** Entries are never replaced or removed. *)
Lemma call_keeps (rValue linearMax : num) σ (k : string) (a : address) :
  translators σ !! k = Some a ->
  translators (snd (constructBiExponentialTranslator Number_toString rValue linearMax σ)) !! k = Some a.
Proof.
  intros Ha.
  destruct (call_cases rValue linearMax σ)
    as [(a' & _ & ->)|[(_ & e & _ & ->)|(Hk & this & _ & ->)]]; cbn [snd]; try exact Ha.
  cbn [translators]. rewrite lookup_insert_ne; [exact Ha|]. intros <-. congruence.
Qed.

Lemma run_keeps (calls : list (num * num)) σ (k : string) (a : address) :
  translators σ !! k = Some a -> translators (run Number_toString calls σ) !! k = Some a.
Proof.
  revert σ. induction calls as [|[r T] rest IH]; intros σ Ha; cbn [run]; [exact Ha|].
  now apply IH, call_keeps.
Qed.

Lemma run_well_formed (calls : list (num * num)) σ :
  well_formed σ -> well_formed (run Number_toString calls σ).
Proof.
  revert σ. induction calls as [|[r T] rest IH]; intros σ Hwf; cbn [run]; [exact Hwf|].
  now apply IH, call_well_formed.
Qed.

(** After a call has returned, the key is in the map under the address
    returned. *)
Lemma call_Normal (rValue linearMax : num) σ ref σ1 :
  constructBiExponentialTranslator Number_toString rValue linearMax σ = (Normal ref, σ1) ->
  exists a, ref = Some a /\ translators σ1 !! key_of Number_toString rValue linearMax = Some a.
Proof.
  intros H.
  destruct (call_cases rValue linearMax σ)
    as [(a & Ha & E)|[(_ & e & _ & E)|(Hk & this & _ & E)]];
    rewrite E in H; [| discriminate |].
  - injection H as <- <-. eauto.
  - injection H as <- <-. eexists. split; [reflexivity|].
    cbn [translators]. now rewrite lookup_insert_eq.
Qed.

Lemma call_hit (rValue linearMax : num) σ (a : address) :
  translators σ !! key_of Number_toString rValue linearMax = Some a ->
  constructBiExponentialTranslator Number_toString rValue linearMax σ = (Normal (Some a), σ).
Proof. intros Ha. unfold constructBiExponentialTranslator. now rewrite Ha. Qed.

(** The first request for a key constructs the object; the store then
    holds it at the address returned. *)
Lemma call_miss (rValue linearMax : num) σ ref σ1 :
  translators σ !! key_of Number_toString rValue linearMax = None ->
  constructBiExponentialTranslator Number_toString rValue linearMax σ = (Normal ref, σ1) ->
  exists this,
    construct rValue linearMax = Normal this
    /\ ref = Some (List.length (heap σ))
    /\ heap σ1 = heap σ ++ [this].
Proof.
  intros Hk H.
  destruct (call_cases rValue linearMax σ)
    as [(a & Ha & E)|[(_ & e & _ & E)|(_ & this & Hc & E)]];
    [congruence | rewrite E in H; discriminate |].
  rewrite E in H. injection H as <- <-. exists this. auto.
Qed.

(** ** Keys and inputs *)

Lemma append_empty (s : string) : "" +:+ s = s.
Proof. reflexivity. Qed.

Lemma append_String (c : ascii) (s t : string) : String c s +:+ t = String c (s +:+ t).
Proof. reflexivity. Qed.

(** Two keys whose first renderings carry no ["_"] are equal only when
    both renderings are. *)
Lemma append_underscore_inj (s1 s2 t1 t2 : string) :
  has_underscore s1 = false -> has_underscore t1 = false ->
  s1 +:+ "_" +:+ s2 = t1 +:+ "_" +:+ t2 -> s1 = t1 /\ s2 = t2.
Proof.
  revert t1. induction s1 as [|c s1 IH]; intros [|c' t1] Hs Ht;
    rewrite ?append_String, ?append_empty; cbn [has_underscore] in Hs, Ht.
  - now intros [= ->].
  - intros [= <- _]. apply orb_false_elim in Ht as [Ht _].
    now rewrite Ascii.eqb_refl in Ht.
  - intros [= -> _]. apply orb_false_elim in Hs as [Hs _].
    now rewrite Ascii.eqb_refl in Hs.
  - apply orb_false_elim in Hs as [_ Hs]. apply orb_false_elim in Ht as [_ Ht].
    intros [= -> H]. destruct (IH _ Hs Ht H) as [-> ->]. auto.
Qed.

Lemma key_of_exact_match (r1 T1 r2 T2 : num) :
  has_underscore (Number_toString r1) = false ->
  has_underscore (Number_toString r2) = false ->
  key_of Number_toString r1 T1 = key_of Number_toString r2 T2 <->
  Number_toString r1 = Number_toString r2 /\ Number_toString T1 = Number_toString T2.
Proof.
  intros H1 H2. unfold key_of. split.
  - now apply append_underscore_inj.
  - now intros [-> ->].
Qed.

End CacheProperties.

(** * The table and the coefficients of a constructed object *)

Section Derivation.

Context {num : Type} {N : JSNumber num}.
Local Open Scope js_scope.



End Derivation.

Section LastSample.

Local Open Scope float_scope.


End LastSample.

Section Sorted.

Context {num : Type} {N : JSNumber num}.
Local Open Scope js_scope.




End Sorted.

(** * The properties of the specification *)

Unset Implicit Arguments.

(** ** C9, C4: [solve] *)

(** C9. [solve(b, 0)] returns [b] itself, for every [b], by the first test
    of the function: the loop is not entered.  In exact arithmetic and in
    binary64 (where [w == 0] also holds of [-0]). *)
Theorem C9_solve_degenerate :
  (forall b : R, solve b 0%R = Normal b)
  /\ (forall b : float, solve b 0%float = Normal b)
  /\ (forall b : float, solve b (-0)%float = Normal b).
Proof.
  split; [|split]; intros b; apply solve_degenerate.
  - apply eqb_true. reflexivity.
  - reflexivity.
  - reflexivity.
Qed.

Example solve_10_0 : solve 10%float 0%float = Normal 10%float.
Proof. reflexivity. Qed.

Section Passes.

Context {num : Type} {N : JSNumber num}.
Local Open Scope js_scope.

Implicit Types (s : solve_state num).

(** A pass returns through the first exit whose test holds, and goes on
    with [solve_next] when none does. *)
Lemma solve_pass_exits (w f_b : num) s :
  solve_pass w f_b s
  = if exit_condition NothingChanged w f_b s
    then Return NothingChanged (snd (solve_step w s))
    else if exit_condition DesiredPrecision w f_b s
    then Return DesiredPrecision (snd (solve_step w s))
    else if exit_condition RootOrStalled w f_b s
    then Return RootOrStalled (snd (solve_step w s))
    else Continue (solve_next w f_b s).
Proof.
  unfold solve_pass, exit_condition, solve_next, solve_step.
  destruct (bisects w s); cbn zeta beta iota; cbn [snd].
  - destruct (_ =? d_lo s); [reflexivity|]. cbn [negb andb].
    destruct (Math_abs _ <? _EPSILON); [reflexivity|]. cbn [negb andb].
    destruct (_ || _); reflexivity.
  - destruct (_ =? d s); [reflexivity|]. cbn [negb andb].
    destruct (Math_abs _ <? _EPSILON); [reflexivity|]. cbn [negb andb].
    destruct (_ || _); reflexivity.
Qed.

(** The three tests exclude one another in the order of the source. *)
Lemma exit_condition_unique (w f_b : num) s (why why' : exit) :
  exit_condition why w f_b s = true -> exit_condition why' w f_b s = true ->
  why = why'.
Proof.
  unfold exit_condition. destruct (solve_step w s) as [delta d'].
  destruct (d' =? _); destruct (Math_abs delta <? _EPSILON);
    destruct why, why'; cbn [negb andb]; try reflexivity; discriminate.
Qed.

Lemma solve_pass_Return_iff (w f_b : num) s (why : exit) (d' : num) :
  solve_pass w f_b s = Return why d' <->
  exit_condition why w f_b s = true /\ d' = snd (solve_step w s).
Proof.
  rewrite solve_pass_exits. split.
  - destruct (exit_condition NothingChanged w f_b s) eqn:E1;
      [intros [= <- <-]; auto|].
    destruct (exit_condition DesiredPrecision w f_b s) eqn:E2;
      [intros [= <- <-]; auto|].
    destruct (exit_condition RootOrStalled w f_b s) eqn:E3;
      [intros [= <- <-]; auto | discriminate].
  - intros [Hc ->].
    destruct (exit_condition NothingChanged w f_b s) eqn:E1.
    { now rewrite (exit_condition_unique w f_b s _ _ Hc E1). }
    destruct (exit_condition DesiredPrecision w f_b s) eqn:E2.
    { now rewrite (exit_condition_unique w f_b s _ _ Hc E2). }
    destruct (exit_condition RootOrStalled w f_b s) eqn:E3.
    { now rewrite (exit_condition_unique w f_b s _ _ Hc E3). }
    destruct why; congruence.
Qed.

Lemma solve_pass_Continue_iff (w f_b : num) s (s' : solve_state num) :
  solve_pass w f_b s = Continue s' <->
  exits w f_b s = false /\ s' = solve_next w f_b s.
Proof.
  rewrite solve_pass_exits. unfold exits.
  destruct (exit_condition NothingChanged w f_b s);
    [split; [discriminate | intros [? _]; discriminate]|].
  destruct (exit_condition DesiredPrecision w f_b s);
    [split; [discriminate | intros [? _]; discriminate]|].
  destruct (exit_condition RootOrStalled w f_b s);
    [split; [discriminate | intros [? _]; discriminate]|].
  cbn [orb]. split; [intros [= <-]; auto | intros [_ ->]; reflexivity].
Qed.

Lemma state_after_entry (i : nat) (w f_b : num) s (s' : solve_state num) :
  state_after i w f_b s = Some s' <->
  (forall k : nat, (k < i)%nat -> exits w f_b (solve_entry k w f_b s) = false)
  /\ s' = solve_entry i w f_b s.
Proof.
  revert s. induction i as [|i IH]; intros s; cbn [state_after solve_entry].
  - split; [intros [= <-]; split; [intros k Hk; lia | reflexivity]
           | intros [_ ->]; reflexivity].
  - destruct (solve_pass w f_b s) as [why r|s1] eqn:E.
    + split; [discriminate|]. intros [Hk _]. exfalso.
      specialize (Hk 0%nat ltac:(lia)). cbn [solve_entry] in Hk.
      apply solve_pass_Return_iff in E as [E _].
      unfold exits in Hk. destruct why; rewrite E in Hk;
        cbn [orb] in Hk; try discriminate Hk;
        rewrite ?orb_true_r in Hk; discriminate Hk.
    + apply solve_pass_Continue_iff in E as [E ->]. rewrite IH. split.
      * intros [Hk ->]. split; [|reflexivity].
        intros [|k] Hlt; [exact E | apply Hk; lia].
      * intros [Hk ->]. split; [|reflexivity].
        intros k Hlt. apply (Hk (S k)). lia.
Qed.

End Passes.

(** C4. [solve] always ends, for every [b] and [w] and for every instance
    of the numbers.  A pass of the loop returns exactly when one of the
    three tests holds of the step it takes ([exit_condition]: nothing
    changed, the step is below [_EPSILON], or [f] is zero or repeats), and
    then it returns the new estimate; it goes on, with the state
    [solve_next], exactly when none holds.  Hence [solve] returns [d]
    either at once ([w == 0]) or from the first pass at which an exit holds,
    among the passes of the loop, whose counter [i] runs from [1] to [19]
    (the bisection step before the loop being the first of the twenty
    iterations); and it throws exactly when no exit holds at any of the
    [19] passes.  No other error is thrown. *)
Theorem C4_solve_terminates_or_throws (num : Type) (N : JSNumber num) (b w : num) :
  let f_b := solve_f_b b w in
  let entry := fun i : nat => solve_entry i w f_b (solve_init b w) in
  (forall (s : solve_state num),
      (forall (why : exit) (r : num),
          solve_pass w f_b s = Return why r <->
          exit_condition why w f_b s = true /\ r = snd (solve_step w s))
      /\ (forall s' : solve_state num,
             solve_pass w f_b s = Continue s' <->
             exits w f_b s = false /\ s' = solve_next w f_b s))
  /\ (forall r : num,
         solve b w = Normal r <->
         ((w =? zero)%js = true /\ r = b)
         \/ ((w =? zero)%js = false
             /\ exists (i : nat) (why : exit),
                  (1 <= i < 20)%nat
                  /\ (forall k : nat, (1 <= k < i)%nat -> exits w f_b (entry (k - 1)%nat) = false)
                  /\ exit_condition why w f_b (entry (i - 1)%nat) = true
                  /\ r = snd (solve_step w (entry (i - 1)%nat))))
  /\ (forall e : Error num,
         solve b w = Throw e <->
         (w =? zero)%js = false
         /\ e = ExceededMaximumIterations
         /\ forall k : nat, (1 <= k < 20)%nat -> exits w f_b (entry (k - 1)%nat) = false).
Proof.
  cbv zeta. split; [|split].
  - intros s. split; [intros why r; apply solve_pass_Return_iff
                     | intros s'; apply solve_pass_Continue_iff].
  - intros r. unfold solve. destruct (w =? zero)%js eqn:Hw.
    + split.
      * intros [= <-]. left. auto.
      * intros [[_ ->]|[? _]]; [reflexivity | discriminate].
    + rewrite solve_loop_Normal. split.
      * intros (i & s & why & Hi & Hs & Hp). right. split; [reflexivity|].
        apply state_after_entry in Hs as [Hk ->].
        apply solve_pass_Return_iff in Hp as [Hc ->].
        exists (S i), why. replace (S i - 1)%nat with i by lia.
        unfold solve_passes in Hi.
        split; [lia|]. split; [intros k Hlt; apply Hk; lia|]. auto.
      * intros [[? _]|(_ & i & why & Hi & Hk & Hc & ->)]; [discriminate|].
        exists (i - 1)%nat, (solve_entry (i - 1) w (solve_f_b b w) (solve_init b w)), why.
        unfold solve_passes. split; [lia|]. split.
        -- apply state_after_entry. split; [|reflexivity].
           intros k Hlt. specialize (Hk (S k) ltac:(lia)).
           now replace (S k - 1)%nat with k in Hk by lia.
        -- apply solve_pass_Return_iff. auto.
  - intros e. unfold solve. destruct (w =? zero)%js eqn:Hw.
    + split; [discriminate | now intros [? _]].
    + rewrite solve_loop_Throw. unfold solve_passes.
      change (20 - 1)%nat with 19%nat. split.
      * intros [-> [s Hs]]. apply state_after_entry in Hs as [Hk _].
        split; [reflexivity|]. split; [reflexivity|].
        intros k Hlt. apply Hk. lia.
      * intros (_ & -> & Hk). split; [reflexivity|]. eexists.
        apply state_after_entry. split; [|reflexivity].
        intros k Hlt. specialize (Hk (S k) ltac:(lia)).
        now replace (S k - 1)%nat with k in Hk by lia.
Qed.

(** In binary64 [solve(10, 0.5)] returns about [0.6907]: an exit holds at
    one of the passes, and at none before it. *)
Lemma C4_witness :
  exists (i : nat) (why : exit) (r : float),
    solve 10%float 0.5%float = Normal r
    /\ (Math_abs (r - 0.69067632%float) <? 1e-7%float)%js = true
    /\ (1 <= i < 20)%nat
    /\ (forall k : nat, (1 <= k < i)%nat ->
          exits 0.5%float (solve_f_b 10%float 0.5%float)
                (solve_entry (k - 1) 0.5%float (solve_f_b 10%float 0.5%float)
                             (solve_init 10%float 0.5%float)) = false)
    /\ exit_condition why 0.5%float (solve_f_b 10%float 0.5%float)
         (solve_entry (i - 1) 0.5%float (solve_f_b 10%float 0.5%float)
                      (solve_init 10%float 0.5%float)) = true.
Proof.
  destruct (solve 10%float 0.5%float) as [r|e] eqn:E.
  - pose proof (proj1 (proj2 (C4_solve_terminates_or_throws float float_number
                                 10%float 0.5%float))) as H.
    cbv zeta in H. destruct (proj1 (H r) E) as [[Hw _]|(_ & i & why & Hi & Hk & Hc & Hr)].
    + vm_compute in Hw. discriminate Hw.
    + exists i, why, r. split; [reflexivity|]. split.
      * revert E. vm_compute. intros [= <-]. reflexivity.
      * auto.
  - vm_compute in E. discriminate E.
Defined.

(** The cap is reached: with [b = _M * LN_10] and [w = 4] all nineteen
    passes bisect and none exits; with [w = 2] the last pass returns. *)
Example solve_exceeds :
  solve (_M * LN_10)%js 4%float = Throw ExceededMaximumIterations
  /\ (exists d : float, solve (_M * LN_10)%js 2%float = Normal d
                        /\ (Math_abs (d - 0.000327556%float) <? 1e-9%float)%js = true)
  /\ state_after 18 2%float (solve_f_b (_M * LN_10)%js 2%float)
       (solve_init (_M * LN_10)%js 2%float) <> None.
Proof.
  split; [vm_compute; reflexivity|]. split.
  - eexists. split; vm_compute; reflexivity.
  - vm_compute. discriminate.
Qed.

(** The constructor passes the error on. *)
Example construct_throws :
  construct (-1e32)%float 1%float = Throw ExceededMaximumIterations.
Proof. vm_compute. reflexivity. Qed.

(** ** C8: the sign of the raw input *)

(** C8. A negative raw input makes its absolute value the resolution and
    records the range ([max = linearMax], [min = lookup[0]]); any other raw
    input gives the resolution [0.001] and leaves [min] and [max] at their
    initial [0].  For every instance of the numbers. *)
Theorem C8_sign_selects_mode (num : Type) (N : JSNumber num)
    (rValue linearMax : num) (this : BiexponentialTranslator num) :
  construct rValue linearMax = Normal this ->
  ((rValue <? zero)%js = true ->
     RValue this = Math_abs rValue
     /\ max this = linearMax /\ min this = elem (_lookup this) 0)
  /\ ((rValue <? zero)%js = false ->
        RValue this = decimal 1 3 /\ max this = zero /\ min this = zero).
Proof.
  intros H. apply construct_Normal in H. cbv zeta in H.
  destruct H as (r & _ & HrV & _ & _ & _ & _ & _ & _ & _ & _ & _ & _ & _ & _ & _ & Hmin & Hmax).
  unfold RValue. rewrite HrV, Hmin, Hmax. unfold effective_rValue.
  split; intros ->; auto.
Qed.

Lemma C8_witness :
  match construct (-200)%float 262144%float with
  | Normal this =>
      RValue this = 200%float /\ max this = 262144%float
      /\ min this = elem (_lookup this) 0
  | Throw _ => False
  end.
Proof.
  destruct (construct (-200)%float 262144%float) as [this|e] eqn:E.
  - apply (C8_sign_selects_mode _ _ _ _ _ E). reflexivity.
  - vm_compute in E. discriminate E.
Defined.

Example default_resolution :
  match construct 5%float 262144%float with
  | Normal this =>
      RValue this = 0.001%float /\ max this = 0%float /\ min this = 0%float
  | Throw _ => False
  end.
Proof. vm_compute. repeat split. Qed.

(** ** C6: the clamp of [translateFromLinear] *)

(** C6, as it holds.  [translateFromLinear(v)] is [0] when
    [v <= lookup[0]], and is [_M] when [v > lookup[bins - 1]] and the first
    test has failed.  For every object and every instance of the numbers. *)
Theorem C6_translateFromLinear_clamps (num : Type) (N : JSNumber num)
    (this : BiexponentialTranslator num) (linearValue : num) :
  ((linearValue <=? elem (_lookup this) 0)%js = true ->
     translateFromLinear this linearValue = zero)
  /\ ((linearValue <=? elem (_lookup this) 0)%js = false ->
      (linearValue >? elem (_lookup this) (Z.to_nat (_bins - 1)))%js = true ->
      translateFromLinear this linearValue = _M).
Proof.
  split; [apply translateFromLinear_low | apply translateFromLinear_high].
Qed.

Lemma C6_witness :
  match construct (-1)%float 1000%float with
  | Normal this =>
      translateFromLinear this (-2)%float = 0%float
      /\ translateFromLinear this 1000%float = 4.5%float
  | Throw _ => False
  end.
Proof.
  set (r := construct (-1)%float 1000%float). vm_compute in r.
  unfold r. cbv beta iota.
  split.
  - apply (proj1 (C6_translateFromLinear_clamps float float_number _ _)).
    vm_compute. reflexivity.
  - apply (proj2 (C6_translateFromLinear_clamps float float_number _ _));
      vm_compute; reflexivity.
Defined.

(** C6 fails as stated: the table of [new BiexponentialTranslator(-100000,
    1)] decreases ([lookup[0]] is about [419.5], [lookup[1023]] about
    [1.018]), so [100] is above [lookup[bins - 1]] and yet not above
    [lookup[0]]: the first test wins and the result is [0], not [4.5]. *)
Lemma C6_counterexample :
  match construct (-100000)%float 1%float with
  | Normal this =>
      (100%float >? elem (_lookup this) (Z.to_nat (_bins - 1)))%js = true
      /\ translateFromLinear this 100%float = 0%float
      /\ (0%float =? _M)%js = false
  | Throw _ => False
  end.
Proof. vm_compute. repeat split. Qed.

(** On a table that does not decrease the two tests cannot both hold: the
    usual case. *)
Example translateFromLinear_1000 :
  match construct (-1)%float 1000%float with
  | Normal this =>
      translateFromLinear this 1000%float = 4.5%float
      /\ translateFromLinear this (-2)%float = 0%float
  | Throw _ => False
  end.
Proof. vm_compute. repeat split. Qed.

(** ** C1: continuity at [x1] and the boundary condition *)




(** ** C2: monotonicity of [inverse] *)




(** ** C5: the lookup table *)




(** In binary64 the table of [new BiexponentialTranslator(-1, 1000)], whose
    Taylor window holds the samples up to index [213], does not decrease
    anywhere. *)
Example lookup_sorted_minus_1_1000 :
  match construct (-1)%float 1000%float with
  | Normal this =>
      (_xTaylor this <? 214%float / 1024%float)%js = true
      /\ forallb (fun i => (elem (_lookup this) i <=? elem (_lookup this) (i + 1))%js)
                 (seq 0 1024) = true
  | Throw _ => False
  end.
Proof. vm_compute. repeat split. Qed.

(** ** C3: the round trip through the table *)

(** C3.  The search loop of [translateFromLinear] leaves in [index] the
    lower end [i] of the cell [[lookup[i], lookup[i + 1])] that holds the
    value, and the interpolation that follows works on the cell below,
    [[lookup[index - 1], lookup[index]]]; a value inside the first cell is
    sent to [0].  This for every object and every instance of the numbers.
    At [new BiexponentialTranslator(-1, 1000)]: [-1.55], inside the first
    cell, comes back as [lookup[0]], more than half a cell and more than
    [0.007] away, where the chord of that cell is within [0.00002] of
    [inverse] at its middle and interpolating in the cell itself gives
    [-1.55] back; [989], inside cell [1022], is placed with the slope of
    cell [1021] and comes back more than [0.09] too high, where the chord of
    cell [1022] is within [0.013] of [inverse] at its middle and
    interpolating in the cell itself gives [989] back. *)
Theorem C3_round_trip_uses_the_cell_below :
  (forall (num : Type) (N : JSNumber num) (this : BiexponentialTranslator num)
          (linearValue : num) (i : nat),
      (0 < i < List.length (_lookup this) - 1)%nat -> (Z.of_nat i < _bins)%Z ->
      (linearValue <=? elem (_lookup this) 0)%js = false ->
      (linearValue >? elem (_lookup this) (Z.to_nat (_bins - 1)))%js = false ->
      (forall j : nat, (j < i)%nat -> in_cell (_lookup this) linearValue j = false) ->
      in_cell (_lookup this) linearValue i = true ->
      translateFromLinear this linearValue
      = ((linearValue - elem (_lookup this) (i - 1))
           / (elem (_lookup this) i - elem (_lookup this) (i - 1))
         + of_Z (Z.of_nat i) - one) * _resolution this)%js
  /\ (forall (num : Type) (N : JSNumber num) (this : BiexponentialTranslator num)
             (linearValue : num),
         (2 <= List.length (_lookup this))%nat ->
         (linearValue <=? elem (_lookup this) 0)%js = false ->
         (linearValue >? elem (_lookup this) (Z.to_nat (_bins - 1)))%js = false ->
         in_cell (_lookup this) linearValue 0 = true ->
         translateFromLinear this linearValue = zero)
  /\ match construct (-1)%float 1000%float with
     | Normal this =>
         let L := _lookup this in
         let x := (-1.55)%float in
         (elem L 0 <? x)%js = true /\ (x <? elem L 1)%js = true
         /\ (x <=? elem L (Z.to_nat (_bins - 1)))%js = true
         /\ translateFromLinear this x = 0%float
         /\ translateToLinear this (translateFromLinear this x) = Normal (elem L 0)
         /\ (Math_abs (elem L 0 - x) >? (elem L 1 - elem L 0) / 2%float)%js = true
         /\ (Math_abs (elem L 0 - x) >? 0.007%float)%js = true
         /\ (Math_abs ((elem L 0 + elem L 1) / 2%float
                        - inverse this 0.00048828125%float) <? 0.00002%float)%js = true
         /\ match translateToLinear this
                    ((x - elem L 0) / (elem L 1 - elem L 0) * _resolution this)%js with
            | Normal y => (Math_abs (y - x) <? 1e-12%float)%js = true
            | Throw _ => False
            end
         /\ (elem L 0 <=? 989%float)%js = true
         /\ (989%float <=? elem L (Z.to_nat (_bins - 1)))%js = true
         /\ in_cell L 989%float 1022 = true
         /\ translateFromLinear this 989%float
            = ((989%float - elem L 1021) / (elem L 1022 - elem L 1021)
               + 1022%float - 1%float) * _resolution this
         /\ match translateToLinear this (translateFromLinear this 989%float) with
            | Normal y => (y - 989%float >? 0.09%float)%js = true
            | Throw _ => False
            end
         /\ (Math_abs ((elem L 1022 + elem L 1023) / 2%float
                        - inverse this 0.99853515625%float) <? 0.013%float)%js = true
         /\ match translateToLinear this
                    (((989%float - elem L 1022) / (elem L 1023 - elem L 1022)
                      + 1022%float) * _resolution this)%js with
            | Normal y => (Math_abs (y - 989%float) <? 1e-9%float)%js = true
            | Throw _ => False
            end
     | Throw _ => False
     end%js.
Proof.
  split; [|split].
  - intros num N this linearValue i. apply translateFromLinear_cell.
  - intros num N this linearValue. apply translateFromLinear_first_cell.
  - vm_compute. repeat split.
Qed.

(** ** C10: [translateToLinear] does not throw *)

(** C10, as it holds.  [translateToLinear] never throws.  In exact
    arithmetic the index lies in [[0, bins]] for every argument.  In
    binary64 the call returns for every argument; the index lies in
    [[0, bins]] for every argument but [NaN], which passes the clamp: the
    index is then [NaN], both comparisons of the guard are false, and the
    call returns [lookup[bins]]. *)
Theorem C10_translateToLinear_total :
  (forall (rValue linearMax : R) (this : BiexponentialTranslator R) (scaledValue : R),
      construct rValue linearMax = Normal this ->
      (0 <= table_index this scaledValue <= 1024)%R
      /\ exists linearValue : R,
           translateToLinear this scaledValue = Normal linearValue)
  /\ (forall (rValue linearMax : float) (this : BiexponentialTranslator float)
            (scaledValue : float),
         construct rValue linearMax = Normal this ->
         (exists linearValue : float,
             translateToLinear this scaledValue = Normal linearValue)
         /\ (PrimFloat.is_nan scaledValue = false ->
             (zero <=? table_index this scaledValue)%js = true
             /\ (table_index this scaledValue <=? of_Z _bins)%js = true)
         /\ (PrimFloat.is_nan scaledValue = true ->
             PrimFloat.is_nan (table_index this scaledValue) = true
             /\ translateToLinear this scaledValue
                = Normal (elem (_lookup this) 1024))).
Proof.
  split.
  - intros rValue linearMax this scaledValue H.
    apply construct_Normal in H. cbv zeta in H.
    destruct H as (r & _ & _ & _ & _ & _ & _ & _ & _ & _ & _ & _ & _ & _ & Hres & _).
    split; [now apply table_index_range | now apply translateToLinear_total].
  - intros rValue linearMax this scaledValue H.
    apply construct_Normal in H. cbv zeta in H.
    destruct H as (r & _ & _ & _ & _ & _ & _ & _ & _ & _ & _ & _ & _ & _ & Hres & _).
    split; [now apply translateToLinear_binary64|]. split.
    + intros Hnan. pose proof (table_index_binary64 this scaledValue Hres Hnan) as H.
      unfold in_bins in H.
      apply andb_true_iff in H as [H H4]. apply andb_true_iff in H as [_ H3].
      split; assumption.
    + intros Hnan. apply is_nan_nan in Hnan. subst scaledValue.
      unfold table_index, translateToLinear. rewrite Hres. split; reflexivity.
Qed.

Lemma C10_witness :
  exists this : BiexponentialTranslator R,
    construct (-1)%R 100000%R = Normal this
    /\ (0 <= table_index this 7 <= 1024)%R
    /\ exists linearValue : R, translateToLinear this 7%R = Normal linearValue.
Proof.
  destruct construct_minus_1_100000 as (this & E & _). exists this.
  destruct C10_translateToLinear_total as [Hexact _].
  destruct (Hexact _ _ _ 7%R E) as [Hi Hv]. auto.
Defined.

(** C10 fails as stated for the argument [NaN]: the index is then not in
    [[0, bins]] (it is [NaN], so [0 <= index] is false), although the call
    still returns. *)
Lemma C10_counterexample :
  match construct (-1)%float 1000%float with
  | Normal this =>
      PrimFloat.is_nan (table_index this PrimFloat.nan) = true
      /\ (zero <=? table_index this PrimFloat.nan)%js = false
      /\ (table_index this PrimFloat.nan <=? of_Z _bins)%js = false
      /\ translateToLinear this PrimFloat.nan = Normal (elem (_lookup this) 1024)
  | Throw _ => False
  end.
Proof. vm_compute. repeat split. Qed.

(** The arguments at and beyond the ends of the scale. *)
Example translateToLinear_ends :
  match construct (-1)%float 1000%float with
  | Normal this =>
      translateToLinear this 0%float = Normal (elem (_lookup this) 0)
      /\ translateToLinear this 4.5%float = Normal (elem (_lookup this) 1024)
      /\ translateToLinear this PrimFloat.infinity = Normal (elem (_lookup this) 1024)
      /\ translateToLinear this PrimFloat.neg_infinity = Normal (elem (_lookup this) 0)
      /\ translateFromLinear this 1000%float = 4.5%float
  | Throw _ => False
  end.
Proof. vm_compute. repeat split. Qed.

(** ** C7: the cache *)

(** C7.  From a well-formed store (the initial one, or one left by earlier
    calls), a call that returns names an object of the heap; it constructed
    that object if and only if the key was not yet in the map, and then
    appended exactly that one object.  Every later call with the same
    inputs, whatever calls came between, returns the same address and leaves
    the store as it finds it; a later call whose key differs returns another
    address.  The key is matched on the printed form of the two inputs: two
    keys are equal exactly when both printed inputs are (the printed form of
    a number holding no ["_"]). *)
Theorem C7_cache_identity (num : Type) (N : JSNumber num)
    (Number_toString : num -> string)
    (σ : store) (rValue linearMax : num) (ref : option address) (σ1 : store) :
  well_formed σ ->
  constructBiExponentialTranslator Number_toString rValue linearMax σ
  = (Normal ref, σ1) ->
  (exists a : address, ref = Some a /\ (a < List.length (heap σ1))%nat)
  /\ (translators σ !! key_of Number_toString rValue linearMax = None ->
      exists this : BiexponentialTranslator num,
        construct rValue linearMax = Normal this
        /\ ref = Some (List.length (heap σ))
        /\ heap σ1 = heap σ ++ [this])
  /\ (translators σ !! key_of Number_toString rValue linearMax <> None -> σ1 = σ)
  /\ (forall calls : list (num * num),
         constructBiExponentialTranslator Number_toString rValue linearMax
           (run Number_toString calls σ1)
         = (Normal ref, run Number_toString calls σ1))
  /\ (forall (calls : list (num * num)) (rValue' linearMax' : num)
            (ref' : option address) (σ2 : store),
         key_of Number_toString rValue' linearMax'
         <> key_of Number_toString rValue linearMax ->
         constructBiExponentialTranslator Number_toString rValue' linearMax'
           (run Number_toString calls σ1)
         = (Normal ref', σ2) ->
         ref' <> ref)
  /\ (forall rValue' linearMax' : num,
         has_underscore (Number_toString rValue) = false ->
         has_underscore (Number_toString rValue') = false ->
         key_of Number_toString rValue' linearMax'
         = key_of Number_toString rValue linearMax <->
         Number_toString rValue' = Number_toString rValue
         /\ Number_toString linearMax' = Number_toString linearMax).
Proof.
  intros Hwf H.
  assert (Hwf1 : well_formed σ1).
  { pose proof (call_well_formed Number_toString rValue linearMax Hwf) as H1.
    now rewrite H in H1. }
  destruct (call_Normal _ _ _ _ H) as (a & -> & Ha).
  split; [|split; [|split; [|split; [|split]]]].
  - exists a. split; [reflexivity|]. now apply (proj1 Hwf1 _ _ Ha).
  - intros Hk. now apply (call_miss _ _ _ _ Hk H).
  - intros Hk.
    destruct (call_cases Number_toString rValue linearMax σ)
      as [(a' & _ & E)|[(Hn & _)|(Hn & _)]]; [|congruence..].
    rewrite E in H. now injection H.
  - intros calls. apply call_hit. now apply run_keeps.
  - intros calls rValue' linearMax' ref' σ2 Hkey H2 ->.
    destruct (call_Normal _ _ _ _ H2) as (a' & [= ->] & Ha').
    assert (Hwf2 : well_formed σ2).
    { pose proof (call_well_formed Number_toString rValue' linearMax'
                    (run_well_formed Number_toString calls Hwf1)) as H3.
      now rewrite H2 in H3. }
    assert (Ha2 : translators σ2 !! key_of Number_toString rValue linearMax = Some a').
    { pose proof (call_keeps Number_toString rValue' linearMax' _ _
                    (run_keeps Number_toString calls _ _ Ha)) as H3.
      now rewrite H2 in H3. }
    apply Hkey. now apply (proj2 Hwf2 _ _ _ Ha' Ha2).
  - intros rValue' linearMax' H1 H2. now apply key_of_exact_match.
Qed.

Lemma keys_2_1000_1_1000 :
  key_of float_toString 2%float 1000%float <> key_of float_toString 1%float 1000%float.
Proof. vm_compute. discriminate. Qed.

(** [getOrConstruct(1, 1000)] twice, then [getOrConstruct(2, 1000)], from
    the initial store. *)
Lemma C7_witness :
  exists (a : address) (σ1 : store),
    constructBiExponentialTranslator float_toString 1%float 1000%float initial_store
    = (Normal (Some a), σ1)
    /\ constructBiExponentialTranslator float_toString 1%float 1000%float σ1
       = (Normal (Some a), σ1)
    /\ exists (a' : address) (σ2 : store),
         constructBiExponentialTranslator float_toString 2%float 1000%float σ1
         = (Normal (Some a'), σ2)
         /\ a' <> a
         /\ constructBiExponentialTranslator float_toString 1%float 1000%float σ2
            = (Normal (Some a), σ2).
Proof.
  destruct (constructBiExponentialTranslator float_toString 1%float 1000%float
              initial_store) as [[[a|]|e] σ1] eqn:E1;
    [| exfalso; vm_compute in E1; discriminate E1..].
  destruct (constructBiExponentialTranslator float_toString 2%float 1000%float σ1)
    as [[[a'|]|e] σ2] eqn:E2.
  - destruct (C7_cache_identity _ _ _ _ _ _ _ _ well_formed_initial E1)
      as (_ & _ & _ & Hsame & Hother & _).
    exists a, σ1. split; [reflexivity|]. split; [apply (Hsame [])|].
    exists a', σ2. split; [exact E2|]. split.
    + intros ->. apply (Hother [] _ _ _ _ keys_2_1000_1_1000 E2). reflexivity.
    + pose proof (Hsame [(2%float, 1000%float)]) as H. cbn [run] in H.
      now rewrite E2 in H.
  - exfalso. apply call_Normal in E2. now destruct E2 as (? & ? & _).
  - exfalso.
    destruct (call_cases float_toString 2%float 1000%float σ1)
      as [(? & _ & E)|[(_ & e' & Hc & _)|(_ & ? & _ & E)]];
      [rewrite E in E2; discriminate E2 | | rewrite E in E2; discriminate E2].
    vm_compute in Hc. discriminate Hc.
Defined.

Example cache_addresses :
  let '(r1, σ1) := constructBiExponentialTranslator float_toString 1%float 1000%float
                     initial_store in
  let '(r2, σ2) := constructBiExponentialTranslator float_toString 1%float 1000%float σ1 in
  let '(r3, σ3) := constructBiExponentialTranslator float_toString 2%float 1000%float σ2 in
  key_of float_toString 1%float 1000%float = "1_1000"
  /\ r1 = Normal (Some 0%nat) /\ r2 = Normal (Some 0%nat) /\ r3 = Normal (Some 1%nat)
  /\ List.length (heap σ3) = 2%nat.
Proof. vm_compute. repeat split. Qed.

(** * Further properties *)

(** ** Errors of the constructor *)

Section ConstructorErrors.

Context {num : Type} {N : JSNumber num}.
Local Open Scope js_scope.

Lemma solve_Throw (b w : num) (e : Error num) :
  solve b w = Throw e -> e = ExceededMaximumIterations /\ (w =? zero) = false.
Proof.
  unfold solve. destruct (w =? zero); [discriminate|].
  intros H. apply solve_loop_Throw in H. now destruct H.
Qed.

Lemma construct_Throw (rValue linearMax : num) (e : Error num) :
  construct rValue linearMax = Throw e <->
  solve (_M * LN_10) (width rValue linearMax / _M) = Throw e.
Proof.
  pose proof (construct_solve rValue linearMax) as H.
  destruct (solve _ _) as [d|e'].
  - destruct H as [this H]. rewrite H. split; discriminate.
  - rewrite H. split; intros [= ->]; reflexivity.
Qed.

End ConstructorErrors.

(** X1.  The constructor throws exactly when its call of [solve] does, and
    then with the error of [solve]: "exceeded maximum iterations", with a
    width [w] that is not [0].  The [1025] calls of [inverse] and the loops
    that fill the tables add no error of their own.  For every instance of
    the numbers. *)
Theorem X1_constructor_fails_only_in_solve (num : Type) (N : JSNumber num)
    (rValue linearMax : num) (e : Error num) :
  (construct rValue linearMax = Throw e <->
   solve (_M * LN_10)%js (width rValue linearMax / _M)%js = Throw e)
  /\ (construct rValue linearMax = Throw e ->
      e = ExceededMaximumIterations
      /\ (width rValue linearMax / _M =? zero)%js = false).
Proof.
  split; [apply construct_Throw|].
  intros H. apply construct_Throw in H. now apply solve_Throw in H.
Qed.

Lemma X1_witness :
  construct (-1e32)%float 1%float = Throw ExceededMaximumIterations
  /\ solve (_M * LN_10)%js (width (-1e32)%float 1%float / _M)%js
     = Throw ExceededMaximumIterations.
Proof.
  assert (H : construct (-1e32)%float 1%float = Throw ExceededMaximumIterations)
    by (vm_compute; reflexivity).
  split; [exact H|].
  apply (proj1 (proj1 (X1_constructor_fails_only_in_solve _ _ _ _ _)) H).
Defined.

(** ** A [linearMax] that is not positive *)

Section NotPositive.

Local Open Scope float_scope.

Lemma ltb_zero_not_above (x : float) :
  (0 <? x) = false -> not_above_zero (Prim2SF x).
Proof.
  rewrite FloatAxioms.ltb_spec. change (Prim2SF 0) with (S754_zero false).
  destruct (Prim2SF x) as [s|s| |s m e]; try exact (fun _ => I);
    destruct s; try exact (fun _ => I); discriminate.
Qed.

Lemma ltb_zero_above (x : float) :
  (x <? 0) = true -> above_zero (Prim2SF (abs x)).
Proof.
  rewrite FloatAxioms.ltb_spec, FloatAxioms.abs_spec.
  change (Prim2SF 0) with (S754_zero false).
  destruct (Prim2SF x) as [s|s| |s m e]; try discriminate;
    destruct s; try discriminate; exact (fun _ => I).
Qed.

Lemma abs_above (x : float) :
  above_zero (Prim2SF x) -> above_zero (Prim2SF (abs x)).
Proof.
  rewrite FloatAxioms.abs_spec.
  destruct (Prim2SF x) as [s|s| |s m e]; try contradiction;
    destruct s; try contradiction; exact (fun _ => I).
Qed.

Lemma div_not_above (x y : float) :
  not_above_zero (Prim2SF x) -> above_zero (Prim2SF y) ->
  not_above_zero (Prim2SF (x / y)).
Proof.
  rewrite FloatAxioms.div_spec. unfold SF64div.
  destruct (Prim2SF x) as [sx|sx| |sx mx ex], (Prim2SF y) as [sy|sy| |sy my ey];
    try contradiction; try (destruct sy; try contradiction);
    try (destruct sx; try contradiction); intros _ _; try exact I.
  unfold SFdiv.
  destruct (SFdiv_core_binary _ _ _ _ _ _) as [[mz ez] lz].
  unfold binary_round_aux.
  destruct (shr_fexp _ _ _ _ _) as [mrs' e'].
  destruct (shr_fexp _ _ _ _ _) as [mrs'' e''].
  destruct (shr_m mrs''); [exact I | | exact I].
  destruct (_ <=? _)%Z; exact I.
Qed.

(** [Math.log10] of such a value is [NaN] or [-Infinity]. *)
Lemma log10_not_above (x : float) :
  not_above_zero (Prim2SF x) ->
  Libm.log10 x = nan \/ Libm.log10 x = neg_infinity.
Proof.
  intros H. unfold Libm.log10.
  destruct (is_nan x) eqn:En; [left; now apply is_nan_nan|].
  destruct (x <? PrimFloat.zero) eqn:El; [now left|].
  destruct (x =? PrimFloat.zero) eqn:Ee; [now right|].
  exfalso. unfold is_nan in En.
  rewrite FloatAxioms.eqb_spec in En, Ee. rewrite FloatAxioms.ltb_spec in El.
  change (Prim2SF PrimFloat.zero) with (S754_zero false) in *.
  destruct (Prim2SF x) as [s|s| |s m e]; try contradiction;
    try (destruct s; try contradiction); discriminate.
Qed.

Lemma effective_rValue_above (rValue : float) :
  above_zero (Prim2SF (abs (effective_rValue rValue))).
Proof.
  unfold effective_rValue. cbn [nlt Math_abs float_number].
  destruct (rValue <? zero) eqn:E.
  - apply abs_above, ltb_zero_above, E.
  - vm_compute. exact I.
Qed.

End NotPositive.

(** X2.  In binary64: a [linearMax] that is not above zero (a zero, a negative
    number, [-Infinity] or [NaN]) makes the constructor throw, whatever the
    first argument: [Math.log10] gives [NaN] or [-Infinity], the width is
    [NaN] or [Infinity], and [solve] runs through all its passes. *)
Theorem X2_constructor_rejects_linearMax_not_above_zero (rValue linearMax : float) :
  (zero <? linearMax)%js = false ->
  construct rValue linearMax = Throw ExceededMaximumIterations.
Proof.
  intros H. apply construct_Throw.
  assert (Hw : width rValue linearMax = PrimFloat.nan
               \/ width rValue linearMax = PrimFloat.infinity).
  { unfold width. cbv zeta. cbn [Math_log10 ndiv Math_abs float_number].
    destruct (log10_not_above _
                (div_not_above _ _ (ltb_zero_not_above _ H)
                   (effective_rValue_above rValue))) as [-> | ->];
      [left | right]; vm_compute; reflexivity. }
  destruct Hw as [-> | ->]; vm_compute; reflexivity.
Qed.

Lemma X2_witness :
  construct (-1)%float 0%float = Throw ExceededMaximumIterations
  /\ construct 1%float (-1000)%float = Throw ExceededMaximumIterations
  /\ construct (-1)%float PrimFloat.nan = Throw ExceededMaximumIterations.
Proof.
  split; [|split]; apply X2_constructor_rejects_linearMax_not_above_zero; reflexivity.
Defined.

(** ** [translateFromLinear]: a value that no cell holds *)

Section NoCell.

Context {num : Type} {N : JSNumber num}.
Local Open Scope js_scope.

Lemma search_none (lookup : list num) (linearValue : num) (indices : list nat) :
  (forall i : nat, In i indices -> in_cell lookup linearValue i = false) ->
  search lookup linearValue indices = (-1)%Z.
Proof.
  induction indices as [|i rest IH]; intros H; cbn [search]; [reflexivity|].
  fold (in_cell lookup linearValue i). rewrite (H i (or_introl eq_refl)).
  apply IH. intros j Hj. apply H. now right.
Qed.

Lemma translateFromLinear_none (this : BiexponentialTranslator num) (linearValue : num) :
  (linearValue <=? elem (_lookup this) 0) = false ->
  (linearValue >? elem (_lookup this) (Z.to_nat (_bins - 1))) = false ->
  (forall i : nat, (i < List.length (_lookup this) - 1)%nat ->
                   in_cell (_lookup this) linearValue i = false) ->
  translateFromLinear this linearValue = elem (_lookup this) 0.
Proof.
  intros H1 H2 Hcells. unfold translateFromLinear. cbv zeta. rewrite H1, H2.
  rewrite search_none; [reflexivity|].
  intros i Hi. apply Hcells. apply in_seq in Hi. lia.
Qed.

End NoCell.

Section NaN.

Local Open Scope float_scope.

Lemma leb_nan_l (x : float) : (nan <=? x) = false.
Proof. rewrite FloatAxioms.leb_spec. reflexivity. Qed.

Lemma leb_nan_r (x : float) : (x <=? nan) = false.
Proof. rewrite FloatAxioms.leb_spec. now destruct (Prim2SF x) as [[]|[]| |[] m e]. Qed.

Lemma ltb_nan_l (x : float) : (nan <? x) = false.
Proof. rewrite FloatAxioms.ltb_spec. reflexivity. Qed.

Lemma ltb_nan_r (x : float) : (x <? nan) = false.
Proof. rewrite FloatAxioms.ltb_spec. now destruct (Prim2SF x) as [[]|[]| |[] m e]. Qed.

End NaN.

(** X18.  A value that passes both clamps and lies in no cell of the table leaves
    the search loop with [index = -1]; the complement [~index] is [0], and
    the function returns [lookup[0]]: a linear value, where a scale value is
    expected.  This is what happens to [NaN], on every table. *)
Theorem X18_translateFromLinear_outside_every_cell :
  (forall (num : Type) (N : JSNumber num) (rValue linearMax : num)
          (this : BiexponentialTranslator num) (linearValue : num),
      construct rValue linearMax = Normal this ->
      (linearValue <=? elem (_lookup this) 0)%js = false ->
      (linearValue >? elem (_lookup this) 1023)%js = false ->
      (forall i : nat, (i < 1024)%nat -> in_cell (_lookup this) linearValue i = false) ->
      translateFromLinear this linearValue = elem (_lookup this) 0)
  /\ (forall (rValue linearMax : float) (this : BiexponentialTranslator float),
         construct rValue linearMax = Normal this ->
         translateFromLinear this PrimFloat.nan = elem (_lookup this) 0).
Proof.
  split.
  - intros num N rValue linearMax this linearValue H H1 H2 Hcells.
    apply translateFromLinear_none; [exact H1 | exact H2 |].
    intros i Hi. apply Hcells.
    rewrite (construct_lookup_length _ _ H) in Hi. unfold _bins in Hi. lia.
  - intros rValue linearMax this H.
    apply translateFromLinear_none.
    + apply leb_nan_l.
    + apply ltb_nan_r.
    + intros i _. unfold in_cell. cbn [nle nlt float_number].
      now rewrite leb_nan_r.
Qed.

Lemma X18_witness :
  match construct (-1)%float 1000%float with
  | Normal this =>
      translateFromLinear this PrimFloat.nan = elem (_lookup this) 0
      /\ (elem (_lookup this) 0 <? (-1.5)%float)%js = true
  | Throw _ => False
  end.
Proof.
  destruct (construct (-1)%float 1000%float) as [this|e] eqn:E.
  - split.
    + apply (proj2 X18_translateFromLinear_outside_every_cell _ _ _ E).
    + revert E. set (r := construct (-1)%float 1000%float). vm_compute in r.
      unfold r. intros [= <-]. vm_compute. reflexivity.
  - vm_compute in E. discriminate E.
Defined.

(** ** The cache over many calls *)

Section CacheGrowth.

Context {num : Type} {N : JSNumber num}.
Variable Number_toString : num -> string.

Implicit Types (σ : store (num := num)).

Lemma call_Throw (rValue linearMax : num) σ (e : Error num) σ1 :
  constructBiExponentialTranslator Number_toString rValue linearMax σ = (Throw e, σ1) ->
  σ1 = σ /\ construct rValue linearMax = Throw e
  /\ translators σ !! key_of Number_toString rValue linearMax = None.
Proof.
  intros H.
  destruct (call_cases Number_toString rValue linearMax σ)
    as [(a & _ & E)|[(Hk & e' & Hc & E)|(_ & this & _ & E)]];
    rewrite E in H; try discriminate H.
  injection H as <- <-. auto.
Qed.

Lemma call_appends (rValue linearMax : num) σ :
  exists l : list (BiexponentialTranslator num),
    heap (snd (constructBiExponentialTranslator Number_toString rValue linearMax σ))
    = heap σ ++ l
    /\ (List.length l <= 1)%nat.
Proof.
  destruct (call_cases Number_toString rValue linearMax σ)
    as [(a & _ & ->)|[(_ & e & _ & ->)|(_ & this & _ & ->)]]; cbn [snd heap].
  - exists []. rewrite app_nil_r. auto.
  - exists []. rewrite app_nil_r. auto.
  - exists [this]. auto.
Qed.

Lemma run_appends (calls : list (num * num)) σ :
  exists l : list (BiexponentialTranslator num),
    heap (run Number_toString calls σ) = heap σ ++ l
    /\ (List.length l <= List.length calls)%nat.
Proof.
  revert σ. induction calls as [|[r T] rest IH]; intros σ; cbn [run].
  - exists []. rewrite app_nil_r. auto.
  - destruct (call_appends r T σ) as (l1 & E1 & H1).
    destruct (IH (snd (constructBiExponentialTranslator Number_toString r T σ)))
      as (l2 & E2 & H2).
    exists (l1 ++ l2). rewrite E2, E1, <- app_assoc. split; [reflexivity|].
    rewrite length_app. cbn [List.length]. lia.
Qed.

Lemma call_size (rValue linearMax : num) σ :
  size (translators σ) = List.length (heap σ) ->
  size (translators (snd (constructBiExponentialTranslator Number_toString rValue linearMax σ)))
  = List.length (heap (snd (constructBiExponentialTranslator Number_toString rValue linearMax σ))).
Proof.
  intros Hs.
  destruct (call_cases Number_toString rValue linearMax σ)
    as [(a & _ & ->)|[(_ & e & _ & ->)|(Hk & this & _ & ->)]];
    cbn [snd heap translators]; try exact Hs.
  rewrite map_size_insert_None by exact Hk.
  rewrite length_app. cbn [List.length]. lia.
Qed.

Lemma run_size (calls : list (num * num)) σ :
  size (translators σ) = List.length (heap σ) ->
  size (translators (run Number_toString calls σ))
  = List.length (heap (run Number_toString calls σ)).
Proof.
  revert σ. induction calls as [|[r T] rest IH]; intros σ Hs; cbn [run]; [exact Hs|].
  now apply IH, call_size.
Qed.

(** Every key of the map names the object that the constructor returned
    for inputs with that key. *)
Lemma call_constructed (rValue linearMax : num) σ :
  (forall (k : string) (a : address),
      translators σ !! k = Some a ->
      exists (r T : num) (this : BiexponentialTranslator num),
        key_of Number_toString r T = k /\ construct r T = Normal this
        /\ heap σ !! a = Some this) ->
  forall (k : string) (a : address),
    translators (snd (constructBiExponentialTranslator Number_toString rValue linearMax σ)) !! k
    = Some a ->
    exists (r T : num) (this : BiexponentialTranslator num),
      key_of Number_toString r T = k /\ construct r T = Normal this
      /\ heap (snd (constructBiExponentialTranslator Number_toString rValue linearMax σ)) !! a
         = Some this.
Proof.
  intros Hinv k a.
  destruct (call_cases Number_toString rValue linearMax σ)
    as [(a' & _ & ->)|[(_ & e & _ & ->)|(Hk & this & Hc & ->)]];
    cbn [snd heap translators]; try apply Hinv.
  destruct (decide (key_of Number_toString rValue linearMax = k)) as [<-|Hne].
  - rewrite lookup_insert_eq. intros [= <-].
    exists rValue, linearMax, this. repeat split; [exact Hc|].
    rewrite lookup_app_r by lia. now rewrite Nat.sub_diag.
  - rewrite lookup_insert_ne by exact Hne. intros Ha.
    destruct (Hinv k a Ha) as (r & T & this' & Hkey & Hc' & Hh).
    exists r, T, this'. repeat split; [exact Hkey | exact Hc' |].
    rewrite lookup_app_l; [exact Hh|]. now apply lookup_lt_Some in Hh.
Qed.

Lemma run_constructed (calls : list (num * num)) σ :
  (forall (k : string) (a : address),
      translators σ !! k = Some a ->
      exists (r T : num) (this : BiexponentialTranslator num),
        key_of Number_toString r T = k /\ construct r T = Normal this
        /\ heap σ !! a = Some this) ->
  forall (k : string) (a : address),
    translators (run Number_toString calls σ) !! k = Some a ->
    exists (r T : num) (this : BiexponentialTranslator num),
      key_of Number_toString r T = k /\ construct r T = Normal this
      /\ heap (run Number_toString calls σ) !! a = Some this.
Proof.
  revert σ. induction calls as [|[r T] rest IH]; intros σ Hinv; cbn [run]; [exact Hinv|].
  apply IH. now apply call_constructed.
Qed.

End CacheGrowth.

(** X24.  A call whose construction throws leaves the store as it was: the
    failure is not remembered, the key stays absent, and the same call made
    again runs the constructor again and throws again. *)
Theorem X24_cache_does_not_store_failures (num : Type) (N : JSNumber num)
    (Number_toString : num -> string)
    (σ : store) (rValue linearMax : num) (e : Error num) (σ1 : store) :
  constructBiExponentialTranslator Number_toString rValue linearMax σ = (Throw e, σ1) ->
  σ1 = σ
  /\ translators σ1 !! key_of Number_toString rValue linearMax = None
  /\ construct rValue linearMax = Throw e
  /\ e = ExceededMaximumIterations
  /\ constructBiExponentialTranslator Number_toString rValue linearMax σ1 = (Throw e, σ1).
Proof.
  intros H. destruct (call_Throw _ _ _ _ _ _ H) as (-> & Hc & Hk).
  split; [reflexivity|]. split; [exact Hk|]. split; [exact Hc|].
  split; [|exact H].
  apply construct_Throw in Hc. now apply solve_Throw in Hc.
Qed.

Lemma X24_witness :
  constructBiExponentialTranslator float_toString (-1e32)%float 1%float initial_store
  = (Throw ExceededMaximumIterations, initial_store)
  /\ translators (initial_store (num := float))
       !! key_of float_toString (-1e32)%float 1%float = None.
Proof.
  assert (H : constructBiExponentialTranslator float_toString (-1e32)%float 1%float
                initial_store
              = (Throw ExceededMaximumIterations, initial_store))
    by (vm_compute; reflexivity).
  split; [exact H|].
  apply (X24_cache_does_not_store_failures _ _ _ _ _ _ _ _ H).
Defined.

(** X25.  Over any sequence of calls the cache only grows: objects are appended
    to those already there, at most one per call, and a key keeps the
    address it has.  Nothing is evicted or replaced. *)
Theorem X25_cache_only_grows (num : Type) (N : JSNumber num)
    (Number_toString : num -> string) (calls : list (num * num)) (σ : store) :
  (exists l : list (BiexponentialTranslator num),
      heap (run Number_toString calls σ) = heap σ ++ l
      /\ (List.length l <= List.length calls)%nat)
  /\ (forall (k : string) (a : address),
         translators σ !! k = Some a ->
         translators (run Number_toString calls σ) !! k = Some a).
Proof.
  split; [apply run_appends | intros k a; apply run_keeps].
Qed.

(** X26.  Starting from the empty cache, after any sequence of calls: the map has
    as many keys as the heap has objects, and a call that returns hands
    out an object that the constructor returned for inputs with the same
    key. *)
Theorem X26_cache_holds_what_the_constructor_returned (num : Type) (N : JSNumber num)
    (Number_toString : num -> string) (calls : list (num * num))
    (rValue linearMax : num) (ref : option address) (σ1 : store) :
  constructBiExponentialTranslator Number_toString rValue linearMax
    (run Number_toString calls initial_store) = (Normal ref, σ1) ->
  size (translators σ1) = List.length (heap σ1)
  /\ exists (a : address) (r T : num) (this : BiexponentialTranslator num),
       ref = Some a
       /\ key_of Number_toString r T = key_of Number_toString rValue linearMax
       /\ construct r T = Normal this
       /\ heap σ1 !! a = Some this.
Proof.
  intros H.
  assert (E : σ1 = run Number_toString [(rValue, linearMax)]
                     (run Number_toString calls initial_store))
    by (cbn [run]; now rewrite H).
  destruct (call_Normal _ _ _ _ H) as (a & -> & Ha). rewrite E in Ha |- *.
  split.
  - apply run_size, run_size. reflexivity.
  - exists a.
    destruct (run_constructed Number_toString [(rValue, linearMax)]
                (run Number_toString calls initial_store)
                (run_constructed Number_toString calls initial_store
                   ltac:(intros k a0; cbn; rewrite lookup_empty; discriminate))
                _ _ Ha) as (r & T & this & Hk & Hc & Hh).
    exists r, T, this. auto.
Qed.

Lemma X26_witness :
  exists (a : address) (σ1 : store) (this : BiexponentialTranslator float),
    constructBiExponentialTranslator float_toString 1%float 1000%float
      (run float_toString [(2%float, 1000%float); (1%float, 1000%float)] initial_store)
    = (Normal (Some a), σ1)
    /\ size (translators σ1) = 2%nat
    /\ heap σ1 !! a = Some this.
Proof.
  destruct (constructBiExponentialTranslator float_toString 1%float 1000%float
              (run float_toString [(2%float, 1000%float); (1%float, 1000%float)]
                 initial_store)) as [[ref|e] σ1] eqn:E;
    [| exfalso; vm_compute in E; discriminate E].
  destruct (X26_cache_holds_what_the_constructor_returned _ _ _ _ _ _ _ _ E)
    as (Hs & a & r & T & this & -> & _ & _ & Hh).
  exists a, σ1, this. split; [reflexivity|]. split; [|exact Hh].
  rewrite Hs. vm_compute in E. injection E as _ <-. reflexivity.
Defined.

(** ** More of the binary64 reading *)

Section Binary64More.

Local Open Scope float_scope.

Lemma above_zero_ltb (x : float) : above_zero (Prim2SF x) -> (0 <? x) = true.
Proof.
  rewrite FloatAxioms.ltb_spec. change (Prim2SF 0) with (S754_zero false).
  destruct (Prim2SF x) as [s|s| |s m e]; try contradiction;
    destruct s; try contradiction; reflexivity.
Qed.

Lemma effective_rValue_above_zero (rValue : float) :
  above_zero (Prim2SF (effective_rValue rValue)).
Proof.
  unfold effective_rValue. cbn [nlt Math_abs float_number].
  destruct (rValue <? zero) eqn:E.
  - apply ltb_zero_above, E.
  - vm_compute. exact I.
Qed.

Lemma eqb_zero (x : float) : (x =? 0) = true -> x = 0 \/ x = -0.
Proof.
  rewrite FloatAxioms.eqb_spec. change (Prim2SF 0) with (S754_zero false).
  intros H. rewrite <- (SF2Prim_Prim2SF x).
  destruct (Prim2SF x) as [s|s| |s m e]; try discriminate H;
    destruct s; try discriminate H; [right | left]; reflexivity.
Qed.

(** A double that is at least [4.5] is above [4.5] or is [4.5]. *)
Lemma leb_45 (x : float) :
  (4.5 <=? x) = true -> (x <? 0) = false /\ ((4.5 <? x) = true \/ x = 4.5).
Proof.
  rewrite FloatAxioms.leb_spec, !FloatAxioms.ltb_spec.
  change (Prim2SF 0) with (S754_zero false).
  change (Prim2SF 4.5) with (S754_finite false 5066549580791808 (-50)).
  intros H.
  destruct (Prim2SF x) as [s|s| |s m e] eqn:Ex; try discriminate H;
    destruct s; try discriminate H.
  - split; [reflexivity | left; reflexivity].
  - split; [reflexivity|].
    unfold SFleb, SFltb, SFcompare in *.
    destruct (Z.compare_spec (-50) e) as [He|He|He]; try discriminate H.
    + change (PosDef.Pos.compare_cont Eq 5066549580791808 m)
        with (Pos.compare 5066549580791808 m) in *.
      destruct (Pos.compare 5066549580791808 m) eqn:Hm; try discriminate H.
      * right. apply Pos.compare_eq in Hm. apply Prim2SF_inj. rewrite Ex.
        subst. reflexivity.
      * left. reflexivity.
    + left. reflexivity.
Qed.

End Binary64More.

(** X16.  In binary64: every scale value that is at least [4.5], [Infinity]
    included, is clamped to [4.5]; the index is then [bins] and the result
    is [lookup[bins]]. *)
Theorem X16_translateToLinear_saturates_above (rValue linearMax : float)
    (this : BiexponentialTranslator float) (scaledValue : float) :
  construct rValue linearMax = Normal this ->
  (_M <=? scaledValue)%js = true ->
  translateToLinear this scaledValue = Normal (elem (_lookup this) 1024).
Proof.
  intros H Hs.
  assert (Hres : _resolution this = (_M / of_Z _bins)%js).
  { apply construct_Normal in H. cbv zeta in H.
    now destruct H as (r & _ & _ & _ & _ & _ & _ & _ & _ & _ & _ & _ & _ & _ & Hres & _). }
  destruct (leb_45 scaledValue Hs) as [H0 H45].
  assert (Hc : clamp_scale scaledValue = 4.5%float).
  { unfold clamp_scale. cbn [nlt float_number].
    change (@zero float float_number) with 0%float.
    change (@decimal float float_number 45 1) with 4.5%float.
    rewrite H0. destruct H45 as [-> | ->]; reflexivity. }
  unfold translateToLinear. cbv zeta. rewrite Hc, Hres. reflexivity.
Qed.

Lemma X16_witness :
  match construct (-1)%float 1000%float with
  | Normal this =>
      translateToLinear this PrimFloat.infinity = Normal (elem (_lookup this) 1024)
      /\ translateToLinear this 1e300%float = Normal (elem (_lookup this) 1024)
  | Throw _ => False
  end.
Proof.
  destruct (construct (-1)%float 1000%float) as [this|e] eqn:E.
  - split; apply (X16_translateToLinear_saturates_above _ _ _ _ E); reflexivity.
  - vm_compute in E. discriminate E.
Defined.

(** ** [translateToLinear] below zero *)

(** X15.  In binary64 every scale value below zero, [-Infinity] included,
    is clamped to [0], whose index is [0] with offset [0]: the result is
    [1 * lookup[0] + 0 * lookup[1]], as for the scale value [0] itself. *)
Theorem X15_translateToLinear_saturates_below (rValue linearMax : float)
    (this : BiexponentialTranslator float) (scaledValue : float) :
  construct rValue linearMax = Normal this ->
  (scaledValue <? zero)%js = true ->
  translateToLinear this scaledValue
  = Normal (1 * elem (_lookup this) 0 + 0 * elem (_lookup this) 1)%float
  /\ translateToLinear this scaledValue = translateToLinear this zero.
Proof.
  intros H Hs.
  assert (Hres : _resolution this = (_M / of_Z _bins)%js).
  { apply construct_Normal in H. cbv zeta in H.
    now destruct H as (r & _ & _ & _ & _ & _ & _ & _ & _ & _ & _ & _ & _ & _ & Hres & _). }
  assert (Hc : clamp_scale scaledValue = 0%float).
  { unfold clamp_scale. now rewrite Hs. }
  unfold translateToLinear. cbv zeta. rewrite Hc, Hres. split; reflexivity.
Qed.

Lemma X15_witness :
  match construct (-1)%float 1000%float with
  | Normal this =>
      translateToLinear this PrimFloat.neg_infinity
      = Normal (1 * elem (_lookup this) 0 + 0 * elem (_lookup this) 1)%float
      /\ translateToLinear this (-3)%float = translateToLinear this zero
  | Throw _ => False
  end.
Proof.
  destruct (construct (-1)%float 1000%float) as [this|e] eqn:E.
  - split; apply (X15_translateToLinear_saturates_below _ _ _ _ E); reflexivity.
  - vm_compute in E. discriminate E.
Defined.

(** ** The round trip at the ends of the table *)

(** X23.  In binary64, for every constructed object, the trip linear, scale,
    linear clamps at the ends of the table.  A value [v <= lookup[0]] is
    sent to the scale value [0] and comes back as
    [1 * lookup[0] + 0 * lookup[1]], the value of [translateToLinear(0)].
    A value above [lookup[bins - 1]] (and not at or below [lookup[0]]) is
    sent to [_M] and comes back as [lookup[bins]], whatever its size. *)
Theorem X23_round_trip_clamps_at_the_ends (rValue linearMax : float)
    (this : BiexponentialTranslator float) (linearValue : float) :
  construct rValue linearMax = Normal this ->
  ((linearValue <=? elem (_lookup this) 0)%js = true ->
     translateToLinear this (translateFromLinear this linearValue)
     = Normal (1 * elem (_lookup this) 0 + 0 * elem (_lookup this) 1)%float)
  /\ ((linearValue <=? elem (_lookup this) 0)%js = false ->
      (linearValue >? elem (_lookup this) 1023)%js = true ->
      translateToLinear this (translateFromLinear this linearValue)
      = Normal (elem (_lookup this) 1024)).
Proof.
  intros H.
  assert (Hres : _resolution this = (_M / of_Z _bins)%js).
  { apply construct_Normal in H. cbv zeta in H.
    now destruct H as (r & _ & _ & _ & _ & _ & _ & _ & _ & _ & _ & _ & _ & _ & Hres & _). }
  split.
  - intros Hv. rewrite translateFromLinear_low by exact Hv.
    unfold translateToLinear. cbv zeta. rewrite Hres. reflexivity.
  - intros H0 Hv. rewrite translateFromLinear_high by assumption.
    unfold translateToLinear. cbv zeta. rewrite Hres. reflexivity.
Qed.

Lemma X23_witness :
  match construct (-1)%float 1000%float with
  | Normal this =>
      translateToLinear this (translateFromLinear this (-2)%float)
      = Normal (1 * elem (_lookup this) 0 + 0 * elem (_lookup this) 1)%float
      /\ translateToLinear this (translateFromLinear this 995%float)
         = Normal (elem (_lookup this) 1024)
  | Throw _ => False
  end.
Proof.
  assert (Hchecked : match construct (-1)%float 1000%float with
                     | Normal this =>
                         ((-2)%float <=? elem (_lookup this) 0)%js
                         && negb (995%float <=? elem (_lookup this) 0)%js
                         && (995%float >? elem (_lookup this) 1023)%js = true
                     | Throw _ => False
                     end) by (vm_compute; reflexivity).
  destruct (construct (-1)%float 1000%float) as [this|e] eqn:E; [|exact Hchecked].
  apply andb_prop in Hchecked as [Hchecked H3].
  apply andb_prop in Hchecked as [H1 H2]. apply negb_true_iff in H2.
  split.
  - apply (proj1 (X23_round_trip_clamps_at_the_ends _ _ _ (-2)%float E) H1).
  - apply (proj2 (X23_round_trip_clamps_at_the_ends _ _ _ 995%float E) H2 H3).
Defined.

(** ** A width of zero *)

(** X3.  When the width [W] is zero (clamped from a negative value, or zero
    itself) the constructor cannot fail: [solve] returns [b] without
    entering its loop, so [d = b].  In binary64 and in exact arithmetic. *)
Theorem X3_zero_width_always_constructs :
  (forall rValue linearMax : float,
      (width rValue linearMax =? zero)%js = true ->
      exists this : BiexponentialTranslator float,
        construct rValue linearMax = Normal this /\ _d this = _b this)
  /\ (forall rValue linearMax : R,
         (width rValue linearMax =? zero)%js = true ->
         exists this : BiexponentialTranslator R,
           construct rValue linearMax = Normal this /\ _d this = _b this).
Proof.
  split; intros rValue linearMax HW.
  - assert (Hw : (width rValue linearMax / _M =? zero)%js = true).
    { cbn [neq ndiv float_number] in *.
      destruct (eqb_zero _ HW) as [-> | ->]; reflexivity. }
    pose proof (construct_solve rValue linearMax) as H.
    rewrite (solve_degenerate _ _ Hw) in H. destruct H as [this H].
    exists this. split; [exact H|].
    apply construct_Normal in H. cbv zeta in H.
    destruct H as (r & Hsolve & _ & _ & _ & _ & Hb & Hd & _).
    rewrite (solve_degenerate _ _ Hw) in Hsolve. injection Hsolve as <-.
    now rewrite Hb, Hd.
  - assert (Hw : (width rValue linearMax / _M =? zero)%js = true).
    { cbn [neq ndiv real_number] in *. apply eqb_true in HW. apply eqb_true.
      rewrite HW, zero_exact, M_exact. lra. }
    pose proof (construct_solve rValue linearMax) as H.
    rewrite (solve_degenerate _ _ Hw) in H. destruct H as [this H].
    exists this. split; [exact H|].
    apply construct_Normal in H. cbv zeta in H.
    destruct H as (r & Hsolve & _ & _ & _ & _ & Hb & Hd & _).
    rewrite (solve_degenerate _ _ Hw) in Hsolve. injection Hsolve as <-.
    now rewrite Hb, Hd.
Qed.

Lemma X3_witness :
  exists this : BiexponentialTranslator float,
    construct 1%float 1000%float = Normal this /\ _d this = _b this.
Proof.
  apply (proj1 X3_zero_width_always_constructs). vm_compute. reflexivity.
Defined.

(** X4.  In binary64 the effective resolution of every constructed object is
    above zero (a positive number or [Infinity], never a zero, a negative
    number or [NaN]): the quotient [linearMax / resolution] of the
    constructor never divides by zero. *)
Theorem X4_effective_resolution_is_above_zero (rValue linearMax : float)
    (this : BiexponentialTranslator float) :
  construct rValue linearMax = Normal this ->
  (zero <? RValue this)%js = true
  /\ (Math_abs (RValue this) =? zero)%js = false.
Proof.
  intros H. apply construct_Normal in H. cbv zeta in H.
  destruct H as (r & _ & HrV & _). unfold RValue. rewrite HrV.
  pose proof (effective_rValue_above_zero rValue) as Ha.
  split; [apply above_zero_ltb, Ha|].
  pose proof (abs_above _ Ha) as Hb.
  cbn [neq Math_abs float_number]. rewrite FloatAxioms.eqb_spec.
  change (Prim2SF zero) with (S754_zero false).
  destruct (Prim2SF (PrimFloat.abs (effective_rValue rValue))) as [s|s| |s m e];
    try contradiction; destruct s; try contradiction; reflexivity.
Qed.

Lemma X4_witness :
  match construct (-200)%float 262144%float with
  | Normal this => (zero <? RValue this)%js = true
  | Throw _ => False
  end.
Proof.
  destruct (construct (-200)%float 262144%float) as [this|e] eqn:E.
  - apply (X4_effective_resolution_is_above_zero _ _ _ E).
  - vm_compute in E. discriminate E.
Defined.

(** ** The reflection about [x1] *)

(** X7.  For every object and every instance of the numbers: a scale value
    [s] below [x1] whose mirror image [2 * x1 - s] is not below [x1] is
    sent by [inverse] to minus the value at the mirror image,
    [inverse(s) = - inverse(2 * x1 - s)].  (The mirror image is computed
    once, from [s]; mirroring it back need not return [s] in binary64.) *)
Theorem X7_inverse_mirrors_below_x1 (num : Type) (N : JSNumber num)
    (this : BiexponentialTranslator num) (scale : num) :
  (scale <? _x1 this)%js = true ->
  (two * _x1 this - scale <? _x1 this)%js = false ->
  inverse this scale = (- inverse this (two * _x1 this - scale))%js.
Proof.
  intros H1 H2. unfold inverse at 2. cbv zeta. rewrite H2.
  unfold inverse. cbv zeta. rewrite H1. reflexivity.
Qed.

Lemma X7_witness :
  match construct (-1)%float 1000%float with
  | Normal this =>
      inverse this 0.1%float
      = (- inverse this (two * _x1 this - 0.1%float))%js
      /\ (inverse this 0.1%float <? zero)%js = true
  | Throw _ => False
  end.
Proof.
  assert (Hchecked : match construct (-1)%float 1000%float with
                     | Normal this =>
                         (0.1%float <? _x1 this)%js
                         && negb (two * _x1 this - 0.1%float <? _x1 this)%js
                         && (inverse this 0.1%float <? zero)%js = true
                     | Throw _ => False
                     end) by (vm_compute; reflexivity).
  destruct (construct (-1)%float 1000%float) as [this|e]; [|exact Hchecked].
  apply andb_prop in Hchecked as [Hchecked H3].
  apply andb_prop in Hchecked as [H1 H2]. apply negb_true_iff in H2.
  split; [apply (X7_inverse_mirrors_below_x1 _ _ this _ H1 H2) | exact H3].
Defined.

(** ** The branches of [translateFromLinear] *)

Section Branches.

Context {num : Type} {N : JSNumber num}.
Local Open Scope js_scope.

Lemma search_cases (lookup : list num) (linearValue : num) (a n : nat) :
  (search lookup linearValue (seq a n) = (-1)%Z
   /\ forall i : nat, (a <= i < a + n)%nat -> in_cell lookup linearValue i = false)
  \/ (exists i : nat,
         (a <= i < a + n)%nat
         /\ search lookup linearValue (seq a n) = Z.of_nat i
         /\ in_cell lookup linearValue i = true
         /\ forall j : nat, (a <= j < i)%nat -> in_cell lookup linearValue j = false).
Proof.
  revert a. induction n as [|n IH]; intros a; cbn [seq search].
  - left. split; [reflexivity | intros i Hi; lia].
  - fold (in_cell lookup linearValue a).
    destruct (in_cell lookup linearValue a) eqn:E.
    + right. exists a. split; [lia|]. split; [reflexivity|]. split; [exact E|].
      intros j Hj. lia.
    + destruct (IH (S a)) as [[Hs Hnone]|(i & Hi & Hs & Hc & Hb)].
      * left. split; [exact Hs|]. intros i Hi.
        destruct (Nat.eq_dec i a) as [->|Hne]; [exact E | apply Hnone; lia].
      * right. exists i. split; [lia|]. split; [exact Hs|]. split; [exact Hc|].
        intros j Hj. destruct (Nat.eq_dec j a) as [->|Hne]; [exact E | apply Hb; lia].
Qed.

End Branches.

(** X27.  For every constructed object and every argument, for every instance of
    the numbers, [translateFromLinear] returns through one of five ways:
    [0] at the lower clamp; [_M] at the upper clamp; [0] for a value in the
    first cell; the interpolation formula for a value whose first cell is
    [i], [0 < i < bins]; or [lookup[0]] for a value in no cell.  The inner
    test [index >= bins] never holds: its branch is dead. *)
Theorem X27_translateFromLinear_returns_in_five_ways (num : Type) (N : JSNumber num)
    (rValue linearMax : num) (this : BiexponentialTranslator num) (linearValue : num) :
  construct rValue linearMax = Normal this ->
  ((linearValue <=? elem (_lookup this) 0)%js = true
   /\ translateFromLinear this linearValue = zero)
  \/ ((linearValue <=? elem (_lookup this) 0)%js = false
      /\ (linearValue >? elem (_lookup this) 1023)%js = true
      /\ translateFromLinear this linearValue = _M)
  \/ ((linearValue <=? elem (_lookup this) 0)%js = false
      /\ (linearValue >? elem (_lookup this) 1023)%js = false
      /\ ((in_cell (_lookup this) linearValue 0 = true
           /\ translateFromLinear this linearValue = zero)
          \/ (exists i : nat,
                 (0 < i < 1024)%nat
                 /\ in_cell (_lookup this) linearValue i = true
                 /\ (forall j : nat, (j < i)%nat -> in_cell (_lookup this) linearValue j = false)
                 /\ translateFromLinear this linearValue
                    = ((linearValue - elem (_lookup this) (i - 1)) / (elem (_lookup this) i - elem (_lookup this) (i - 1))
                       + of_Z (Z.of_nat i) - one) * _resolution this)%js
          \/ ((forall i : nat, (i < 1024)%nat -> in_cell (_lookup this) linearValue i = false)
              /\ translateFromLinear this linearValue = elem (_lookup this) 0))).
Proof.
  intros H. pose proof (construct_lookup_length _ _ H) as Hlen.
  unfold _bins in Hlen. change (Z.to_nat 1024 + 1)%nat with 1025%nat in Hlen.
  destruct (linearValue <=? elem (_lookup this) 0)%js eqn:H1.
  { left. split; [reflexivity|]. now apply translateFromLinear_low. }
  right.
  destruct (linearValue >? elem (_lookup this) 1023)%js eqn:H2.
  { left. split; [reflexivity|]. split; [reflexivity|].
    now apply translateFromLinear_high. }
  right. split; [reflexivity|]. split; [reflexivity|].
  destruct (search_cases (_lookup this) linearValue 0 1024) as [[Hs Hnone]|(i & Hi & Hs & Hc & Hb)].
  - right. right. split; [intros i Hi; apply Hnone; lia|].
    apply translateFromLinear_none; [exact H1 | exact H2 |].
    intros i Hi. apply Hnone. rewrite Hlen in Hi. lia.
  - destruct (Nat.eq_dec i 0) as [->|Hne].
    + left. split; [exact Hc|].
      apply translateFromLinear_first_cell; [lia | exact H1 | exact H2 | exact Hc].
    + right. left. exists i. split; [lia|]. split; [exact Hc|].
      split; [intros j Hj; apply Hb; lia|].
      apply translateFromLinear_cell;
        [lia | unfold _bins; lia | exact H1 | exact H2
         | intros j Hj; apply Hb; lia | exact Hc].
Qed.

Lemma X27_witness :
  match construct (-1)%float 1000%float with
  | Normal this =>
      translateFromLinear this 500%float = 0%float
      \/ translateFromLinear this 500%float = 4.5%float
      \/ (exists i : nat,
             (0 < i < 1024)%nat /\ in_cell (_lookup this) 500%float i = true)
      \/ translateFromLinear this 500%float = elem (_lookup this) 0
  | Throw _ => False
  end.
Proof.
  destruct (construct (-1)%float 1000%float) as [this|e] eqn:E.
  - destruct (X27_translateFromLinear_returns_in_five_ways _ _ _ _ this 500%float E)
      as [[_ H]|[(_ & _ & H)|(_ & _ & [[_ H]|[(i & Hi & Hc & _)|[_ H]]])]].
    + left. exact H.
    + right. left. exact H.
    + left. exact H.
    + right. right. left. exists i. split; assumption.
    + right. right. right. exact H.
  - vm_compute in E. discriminate E.
Defined.

(** ** [translateFromLinear]: the cell of a value *)

Section Binary64Order.

Local Open Scope float_scope.

(** The order of the doubles is total away from [NaN]. *)
Lemma SFcompare_antisym (x y : spec_float) :
  SFcompare y x = option_map CompOpp (SFcompare x y).
Proof.
  destruct x as [sx|sx| |sx mx ex], y as [sy|sy| |sy my ey];
    try reflexivity; try (destruct sx; reflexivity); try (destruct sy; reflexivity);
    try (destruct sx, sy; reflexivity).
  unfold SFcompare.
  change (PosDef.Pos.compare_cont Eq my mx) with (Pos.compare my mx).
  change (PosDef.Pos.compare_cont Eq mx my) with (Pos.compare mx my).
  rewrite (Z.compare_antisym ex ey), (Pos.compare_antisym mx my).
  destruct sx, sy; cbn [option_map]; try reflexivity;
    destruct (Z.compare ex ey); cbn [CompOpp]; try reflexivity;
    destruct (Pos.compare mx my); reflexivity.
Qed.

Lemma ltb_leb (x y : float) : (x <? y) = true -> (x <=? y) = true.
Proof.
  rewrite FloatAxioms.ltb_spec, FloatAxioms.leb_spec. unfold SFltb, SFleb.
  now destruct (SFcompare (Prim2SF x) (Prim2SF y)) as [[]|].
Qed.

Lemma ltb_asym (x y : float) : (x <? y) = true -> (y <=? x) = false.
Proof.
  rewrite FloatAxioms.ltb_spec, FloatAxioms.leb_spec. unfold SFltb, SFleb.
  rewrite (SFcompare_antisym (Prim2SF x) (Prim2SF y)).
  now destruct (SFcompare (Prim2SF x) (Prim2SF y)) as [[]|].
Qed.

Lemma is_nan_false (x : float) : PrimFloat.is_nan x = false -> Prim2SF x <> S754_nan.
Proof.
  unfold PrimFloat.is_nan. rewrite FloatAxioms.eqb_spec. intros H E.
  rewrite E in H. discriminate H.
Qed.

Lemma ltb_not_nan (x y : float) :
  (x <? y) = true -> PrimFloat.is_nan x = false /\ PrimFloat.is_nan y = false.
Proof.
  intros H. split.
  - destruct (PrimFloat.is_nan x) eqn:E; [|reflexivity].
    apply is_nan_nan in E. subst x. now rewrite ltb_nan_l in H.
  - destruct (PrimFloat.is_nan y) eqn:E; [|reflexivity].
    apply is_nan_nan in E. subst y. now rewrite ltb_nan_r in H.
Qed.

Lemma ltb_false_leb (x y : float) :
  PrimFloat.is_nan x = false -> PrimFloat.is_nan y = false ->
  (x <? y) = false -> (y <=? x) = true.
Proof.
  intros Hx Hy. apply is_nan_false in Hx, Hy.
  rewrite FloatAxioms.ltb_spec, FloatAxioms.leb_spec. unfold SFltb, SFleb.
  rewrite (SFcompare_antisym (Prim2SF x) (Prim2SF y)).
  destruct (SFcompare (Prim2SF x) (Prim2SF y)) as [[]|] eqn:E;
    try reflexivity; try discriminate.
  intros _. exfalso.
  destruct (Prim2SF x) as [sx|sx| |sx mx ex], (Prim2SF y) as [sy|sy| |sy my ey];
    try congruence; discriminate E.
Qed.

(** A value above [lookup[0]] and below [lookup[bins]], on a table without
    [NaN], lies in a cell. *)
Lemma in_some_cell (lookup : list float) (linearValue : float) (n : nat) :
  (forall j : nat, (j <= n)%nat -> PrimFloat.is_nan (elem lookup j) = false) ->
  (elem lookup 0 <? linearValue)%js = true ->
  (linearValue <? elem lookup n)%js = true ->
  exists i : nat, (i < n)%nat /\ in_cell lookup linearValue i = true.
Proof.
  intros Hnan H0 Hn.
  destruct (@ltb_not_nan _ _ H0) as [_ Hv].
  assert (Hall : (forall i : nat, (i < n)%nat -> in_cell lookup linearValue i = false) ->
                 forall k : nat, (k <= n)%nat -> (elem lookup k <=? linearValue) = true).
  { intros Hnone. induction k as [|k IH]; intros Hk.
    - apply ltb_leb, H0.
    - specialize (IH ltac:(lia)). specialize (Hnone k ltac:(lia)).
      unfold in_cell in Hnone. cbn [nle nlt float_number] in Hnone.
      rewrite IH in Hnone. cbn [andb] in Hnone.
      replace (k + 1)%nat with (S k) in Hnone by lia.
      apply ltb_false_leb; [exact Hv | apply Hnan, Hk | exact Hnone]. }
  destruct (@search_cases _ _ lookup linearValue 0 n) as [[_ Hnone]|(i & Hi & _ & Hc & _)].
  - exfalso. specialize (Hall (fun i Hi => Hnone i ltac:(lia)) n ltac:(lia)).
    cbn [nlt float_number] in Hn. apply ltb_asym in Hn. congruence.
  - exists i. split; [lia | exact Hc].
Qed.

End Binary64Order.

(** X19.  In binary64, on a constructed table without [NaN]: a value above
    [lookup[0]], not above [lookup[bins - 1]] and below [lookup[bins]] lies
    in a cell [[lookup[i], lookup[i + 1])]; the search loop stops at the
    first such cell [i], and the result is [0] for [i = 0] and
    [((v - lookup[i-1]) / (lookup[i] - lookup[i-1]) + i - 1) * resolution]
    otherwise.  The branch that returns [lookup[0]] is not taken for such
    a value (X18 shows what reaches it). *)
Theorem X19_translateFromLinear_finds_the_cell (rValue linearMax : float)
    (this : BiexponentialTranslator float) (linearValue : float) :
  construct rValue linearMax = Normal this ->
  (forall j : nat, (j <= 1024)%nat ->
                   PrimFloat.is_nan (elem (_lookup this) j) = false) ->
  (elem (_lookup this) 0 <? linearValue)%js = true ->
  (linearValue >? elem (_lookup this) 1023)%js = false ->
  (linearValue <? elem (_lookup this) 1024)%js = true ->
  exists i : nat,
    (i <= 1023)%nat
    /\ in_cell (_lookup this) linearValue i = true
    /\ (forall j : nat, (j < i)%nat -> in_cell (_lookup this) linearValue j = false)
    /\ translateFromLinear this linearValue
       = (if Nat.eqb i 0 then zero
          else ((linearValue - elem (_lookup this) (i - 1))
                  / (elem (_lookup this) i - elem (_lookup this) (i - 1))
                + of_Z (Z.of_nat i) - one) * _resolution this)%js.
Proof.
  intros H Hnan H0 H1023 H1024.
  assert (Hlen : List.length (_lookup this) = 1025%nat)
    by apply (construct_lookup_length _ _ H).
  assert (Hlow : (linearValue <=? elem (_lookup this) 0)%js = false)
    by (apply ltb_asym, H0).
  destruct (@in_some_cell (_lookup this) linearValue 1024 Hnan H0 H1024) as (k & Hk & Hck).
  destruct (@search_cases _ _ (_lookup this) linearValue 0 1024)
    as [[_ Hnone]|(i & Hi & _ & Hc & Hb)].
  - rewrite (Hnone k ltac:(lia)) in Hck. discriminate Hck.
  - exists i. split; [lia|]. split; [exact Hc|].
    split; [intros j Hj; apply Hb; lia|].
    destruct i as [|i].
    + apply translateFromLinear_first_cell; [rewrite Hlen; lia | assumption..].
    + cbn [Nat.eqb]. apply translateFromLinear_cell;
        [rewrite Hlen; lia | unfold _bins; lia | assumption | assumption | | exact Hc].
      intros j Hj. apply Hb. lia.
Qed.

Lemma X19_witness :
  match construct (-1)%float 1000%float with
  | Normal this =>
      exists i : nat,
        (i <= 1023)%nat
        /\ in_cell (_lookup this) 500%float i = true
        /\ translateFromLinear this 500%float
           = (if Nat.eqb i 0 then zero
              else ((500%float - elem (_lookup this) (i - 1))
                      / (elem (_lookup this) i - elem (_lookup this) (i - 1))
                    + of_Z (Z.of_nat i) - one) * _resolution this)%js
  | Throw _ => False
  end.
Proof.
  assert (Hchecked : match construct (-1)%float 1000%float with
                     | Normal this =>
                         forallb (fun j => negb (PrimFloat.is_nan (elem (_lookup this) j)))
                                 (seq 0 1025)
                         && (elem (_lookup this) 0 <? 500%float)%js
                         && negb (500%float >? elem (_lookup this) 1023)%js
                         && (500%float <? elem (_lookup this) 1024)%js = true
                     | Throw _ => False
                     end) by (vm_compute; reflexivity).
  destruct (construct (-1)%float 1000%float) as [this|e] eqn:E; [|exact Hchecked].
  apply andb_prop in Hchecked as [Hchecked H3].
  apply andb_prop in Hchecked as [Hchecked H2].
  apply andb_prop in Hchecked as [H0 H1].
  apply negb_true_iff in H2.
  assert (Hnan : forall j : nat, (j <= 1024)%nat ->
                   PrimFloat.is_nan (elem (_lookup this) j) = false).
  { intros j Hj. rewrite forallb_forall in H0.
    apply negb_true_iff, H0, in_seq. lia. }
  destruct (X19_translateFromLinear_finds_the_cell _ _ _ _ E Hnan H1 H2 H3) as (i & Hi & Hc & _ & Hv).
  exists i. auto.
Defined.

(** ** [translateFromLinear] across a sample *)

(** X21.  In binary64 [translateFromLinear] is not monotone, even on a table
    that increases strictly.  For [new BiexponentialTranslator(-1, 1000)]
    and [new BiexponentialTranslator(-200, 262144)], at each of the samples
    [i = 256, 512, 768, 1023]: the value [v2 = lookup[i]] is sent to
    [i * resolution], and the double [v1] just below it is sent to a larger
    scale value, because it is placed with the slope of the cell below its
    own. *)
Theorem X21_translateFromLinear_is_not_monotone :
  Forall (fun arguments : float * float =>
            match construct (fst arguments) (snd arguments) with
            | Normal this =>
                (forall j : nat, (j < 1024)%nat ->
                   (elem (_lookup this) j <? elem (_lookup this) (j + 1))%js = true)
                /\ Forall (fun i : nat =>
                             exists v1 v2 : float,
                               v2 = elem (_lookup this) i
                               /\ (v1 <? v2)%js = true
                               /\ (translateFromLinear this v2
                                   =? of_Z (Z.of_nat i) * _resolution this)%js = true
                               /\ (translateFromLinear this v2
                                   <? translateFromLinear this v1)%js = true)
                          [256; 512; 768; 1023]%nat
            | Throw _ => False
            end) [((-1)%float, 1000%float); ((-200)%float, 262144%float)].
Proof.
  repeat (apply List.Forall_cons;
          [cbn [fst snd];
           match goal with
           | |- match construct ?r ?T with _ => _ end =>
               assert (H : match construct r T with
                           | Normal this =>
                               lookup_increasing this
                               && forallb (fun i =>
                                    steps_down this i
                                    && (translateFromLinear this (elem (_lookup this) i)
                                        =? of_Z (Z.of_nat i) * _resolution this)%js)
                                  [256; 512; 768; 1023]%nat = true
                           | Throw _ => False
                           end) by (vm_compute; reflexivity);
               destruct (construct r T) as [this|]; [|exact H];
               apply andb_prop in H as [H1 H2]; split;
               [ intros j Hj; unfold lookup_increasing in H1;
                 rewrite forallb_forall in H1; apply H1, in_seq; unfold _bins; lia
               | ]
           end|]);
    [| | apply List.Forall_nil].
  all: rewrite forallb_forall in H2; apply List.Forall_forall; intros i Hi;
    specialize (H2 i Hi); apply andb_prop in H2 as [H2 H3];
    unfold steps_down in H2; cbv zeta in H2; apply andb_prop in H2 as [H2 H4];
    exists (PrimFloat.next_down (elem (_lookup this) i)), (elem (_lookup this) i);
    split; [reflexivity|]; split; [exact H2|]; split; [exact H3 | exact H4].
Qed.
